(** * Advanced Reservoir Reserves Calculator: a shallow embedding

    Source: [advanced_reserves_calculator.py].  The Streamlit script reads
    six scalars from the UI and then re-evaluates one volumetric formula in
    four places: the base case (lines 117-127), the single parameter sweep
    (lines 171-204), the tornado table (lines 259-316) and the two
    parameter matrix (lines 399-464).  The spreadsheet export names its
    sheets with [get_unique_sheet_name] (lines 19-39).

    Numbers are modelled as exact rationals [Q]: the script's Python and
    numpy floats are read as the real numbers they approximate.  The
    percentage inputs (porosity, water saturation, recovery factor) are
    kept in percent, as the UI delivers them, and divided by 100 exactly
    where the script does. *)

From Stdlib Require Import PeanoNat QArith Lqa String Ascii Bool Lia List.
Import ListNotations.
Open Scope Q_scope.

(** ** Inputs (lines 52-112) *)

Record inputs := mk_inputs {
  area : Q;              (* acres *)
  thickness : Q;         (* ft *)
  porosity : Q;          (* percent *)
  water_saturation : Q;  (* percent *)
  oil_fvf : Q;           (* rb/stb *)
  recovery_factor : Q    (* percent *)
}.

(** The parameter names offered by the select boxes (lines 167, 389, 395),
    in the order of the lists. *)
Inductive param :=
| Area | Thickness | Porosity | WaterSaturation | OilFVF | RecoveryFactor.

Definition param_name (p : param) : string :=
  match p with
  | Area => "Area" | Thickness => "Thickness" | Porosity => "Porosity"
  | WaterSaturation => "Water Saturation" | OilFVF => "Oil FVF"
  | RecoveryFactor => "Recovery Factor"
  end.

Definition params : list param :=
  [Area; Thickness; Porosity; WaterSaturation; OilFVF; RecoveryFactor].

(** [eval(param.lower().replace(' ', '_'))]: the base value of a parameter
    (lines 224, 401-408). *)
Definition param_get (b : inputs) (p : param) : Q :=
  match p with
  | Area => area b | Thickness => thickness b | Porosity => porosity b
  | WaterSaturation => water_saturation b | OilFVF => oil_fvf b
  | RecoveryFactor => recovery_factor b
  end.

(** The base inputs with one field replaced, everything else unchanged:
    the reference against which the evaluators are compared. *)
Definition param_set (b : inputs) (p : param) (v : Q) : inputs :=
  match p with
  | Area => mk_inputs v (thickness b) (porosity b) (water_saturation b)
                      (oil_fvf b) (recovery_factor b)
  | Thickness => mk_inputs (area b) v (porosity b) (water_saturation b)
                      (oil_fvf b) (recovery_factor b)
  | Porosity => mk_inputs (area b) (thickness b) v (water_saturation b)
                      (oil_fvf b) (recovery_factor b)
  | WaterSaturation => mk_inputs (area b) (thickness b) (porosity b) v
                      (oil_fvf b) (recovery_factor b)
  | OilFVF => mk_inputs (area b) (thickness b) (porosity b)
                      (water_saturation b) v (recovery_factor b)
  | RecoveryFactor => mk_inputs (area b) (thickness b) (porosity b)
                      (water_saturation b) (oil_fvf b) v
  end.

(** ** Formula Engine (lines 117-127) *)

Definition porosity_decimal (b : inputs) : Q := porosity b / 100.
Definition water_saturation_decimal (b : inputs) : Q := water_saturation b / 100.
Definition recovery_factor_decimal (b : inputs) : Q := recovery_factor b / 100.

(** Line 124. *)
Definition ooip_of (b : inputs) : Q :=
  (7758 * area b * thickness b * porosity_decimal b
     * (1 - water_saturation_decimal b)) / oil_fvf b.

(** Line 127. *)
Definition recoverable_reserves_of (b : inputs) : Q :=
  ooip_of b * recovery_factor_decimal b.

Record estimate := mk_estimate { ooip : Q; recoverable : Q }.

Definition reserves (b : inputs) : estimate :=
  mk_estimate (ooip_of b) (recoverable_reserves_of b).

(** Python's [/] on floats: [ZeroDivisionError] (here [None]) when the
    divisor is zero, the quotient otherwise. *)
Definition py_div (x y : Q) : option Q :=
  if Qeq_bool y 0 then None else Some (x / y).

(** Lines 117-127 as the script runs them: the division of line 124 raises
    when [oil_fvf] is zero; there is no other check on the inputs. *)
Definition formula_engine (b : inputs) : option estimate :=
  match py_div (7758 * area b * thickness b * porosity_decimal b
                  * (1 - water_saturation_decimal b)) (oil_fvf b) with
  | None => None
  | Some o => Some (mk_estimate o (o * recovery_factor_decimal b))
  end.

(** ** numpy.linspace

    [np.linspace(start, stop, num)]: [num] points, the i-th being
    [i * step + start] with [step = (stop - start) / (num - 1)], and the
    last one set to [stop]; a single point is [start]. *)
Definition linspace (start stop : Q) (num : nat) : list Q :=
  match num with
  | O => []
  | S O => [start]
  | S m =>
      let step := (stop - start) / inject_Z (Z.of_nat m) in
      map (fun i => inject_Z (Z.of_nat i) * step + start) (seq 0 m) ++ [stop]
  end.

(** ** Single parameter sweep (lines 171-204) *)

(** [param_ranges], lines 171-178: 100 points, +/-50%, or -20%/+20% for
    the formation volume factor. *)
Definition sweep_points : nat := 100.

Definition param_range (b : inputs) (p : param) : list Q :=
  match p with
  | Area => linspace (area b * 0.5) (area b * 1.5) sweep_points
  | Thickness => linspace (thickness b * 0.5) (thickness b * 1.5) sweep_points
  | Porosity => linspace (porosity b * 0.5) (porosity b * 1.5) sweep_points
  | WaterSaturation =>
      linspace (water_saturation b * 0.5) (water_saturation b * 1.5) sweep_points
  | OilFVF => linspace (oil_fvf b * 0.8) (oil_fvf b * 1.2) sweep_points
  | RecoveryFactor =>
      linspace (recovery_factor b * 0.5) (recovery_factor b * 1.5) sweep_points
  end.

(** The loop body, lines 185-201: [(temp_ooip, temp_recoverable)]. *)
Definition sweep_temp_ooip (b : inputs) (p : param) (value : Q) : Q :=
  match p with
  | Area => (7758 * value * thickness b * porosity_decimal b
               * (1 - water_saturation_decimal b)) / oil_fvf b
  | Thickness => (7758 * area b * value * porosity_decimal b
               * (1 - water_saturation_decimal b)) / oil_fvf b
  | Porosity => (7758 * area b * thickness b * (value / 100)
               * (1 - water_saturation_decimal b)) / oil_fvf b
  | WaterSaturation => (7758 * area b * thickness b * porosity_decimal b
               * (1 - (value / 100))) / oil_fvf b
  | OilFVF => (7758 * area b * thickness b * porosity_decimal b
               * (1 - water_saturation_decimal b)) / value
  | RecoveryFactor => ooip_of b
  end.

Definition sweep_temp_recoverable (b : inputs) (p : param) (value : Q) : Q :=
  match p with
  | RecoveryFactor => ooip_of b * (value / 100)
  | _ => sweep_temp_ooip b p value * recovery_factor_decimal b
  end.

(** One row of [sensitivity_df] (lines 207-211). *)
Record sweep_row := mk_sweep_row {
  sw_value : Q; sw_ooip : Q; sw_recoverable : Q
}.

Definition sweep (b : inputs) (p : param) : list sweep_row :=
  map (fun value => mk_sweep_row value (sweep_temp_ooip b p value)
                      (sweep_temp_recoverable b p value))
      (param_range b p).

(** ** Tornado (lines 259-316) *)

Definition variation_percent : Q := 0.2.

(** [param_low_values] and [param_high_values], lines 267-283. *)
Definition param_low_values (b : inputs) (p : param) : Q :=
  match p with
  | Area => area b * (1 - variation_percent)
  | Thickness => thickness b * (1 - variation_percent)
  | Porosity => porosity b * (1 - variation_percent)
  | WaterSaturation => water_saturation b * (1 - variation_percent)
  | OilFVF => oil_fvf b * (1 - variation_percent)
  | RecoveryFactor => recovery_factor b * (1 - variation_percent)
  end.

Definition param_high_values (b : inputs) (p : param) : Q :=
  match p with
  | Area => area b * (1 + variation_percent)
  | Thickness => thickness b * (1 + variation_percent)
  | Porosity => porosity b * (1 + variation_percent)
  | WaterSaturation => water_saturation b * (1 + variation_percent)
  | OilFVF => oil_fvf b * (1 + variation_percent)
  | RecoveryFactor => recovery_factor b * (1 + variation_percent)
  end.

Record tornado_entry := mk_tornado_entry {
  ooip_low : Q; ooip_high : Q; recoverable_low : Q; recoverable_high : Q
}.

(** The loop body, lines 292-316 ([base_ooip] is [ooip], line 263). *)
Definition tornado_ooip_low (b : inputs) (p : param) : Q :=
  match p with
  | Area => (7758 * param_low_values b p * thickness b * porosity_decimal b
               * (1 - water_saturation_decimal b)) / oil_fvf b
  | Thickness => (7758 * area b * param_low_values b p * porosity_decimal b
               * (1 - water_saturation_decimal b)) / oil_fvf b
  | Porosity => (7758 * area b * thickness b * (param_low_values b p / 100)
               * (1 - water_saturation_decimal b)) / oil_fvf b
  | WaterSaturation => (7758 * area b * thickness b * porosity_decimal b
               * (1 - (param_low_values b p / 100))) / oil_fvf b
  | OilFVF => (7758 * area b * thickness b * porosity_decimal b
               * (1 - water_saturation_decimal b)) / param_high_values b p
  | RecoveryFactor => ooip_of b
  end.

Definition tornado_ooip_high (b : inputs) (p : param) : Q :=
  match p with
  | Area => (7758 * param_high_values b p * thickness b * porosity_decimal b
               * (1 - water_saturation_decimal b)) / oil_fvf b
  | Thickness => (7758 * area b * param_high_values b p * porosity_decimal b
               * (1 - water_saturation_decimal b)) / oil_fvf b
  | Porosity => (7758 * area b * thickness b * (param_high_values b p / 100)
               * (1 - water_saturation_decimal b)) / oil_fvf b
  | WaterSaturation => (7758 * area b * thickness b * porosity_decimal b
               * (1 - (param_high_values b p / 100))) / oil_fvf b
  | OilFVF => (7758 * area b * thickness b * porosity_decimal b
               * (1 - water_saturation_decimal b)) / param_low_values b p
  | RecoveryFactor => ooip_of b
  end.

Definition tornado_entry_of (b : inputs) (p : param) : tornado_entry :=
  match p with
  | RecoveryFactor =>
      mk_tornado_entry (tornado_ooip_low b p) (tornado_ooip_high b p)
        (ooip_of b * (param_low_values b p / 100))
        (ooip_of b * (param_high_values b p / 100))
  | _ =>
      mk_tornado_entry (tornado_ooip_low b p) (tornado_ooip_high b p)
        (tornado_ooip_low b p * recovery_factor_decimal b)
        (tornado_ooip_high b p * recovery_factor_decimal b)
  end.

(** The four dictionaries, keyed in the insertion order of
    [param_low_values]. *)
Definition tornado (b : inputs) : list (param * tornado_entry) :=
  map (fun p => (p, tornado_entry_of b p)) params.

(** ** Two parameter matrix (lines 399-464) *)

Definition matrix_points : nat := 10.

(** [param1_range] / [param2_range], lines 400-410. *)
Definition matrix_range (b : inputs) (p : param) : list Q :=
  linspace (param_get b p * 0.8) (param_get b p * 1.2) matrix_points.

(** [temp_ooip], lines 419-451: only the fifteen pairs listed in the
    [if]/[elif] chain are evaluated; every other selection, including the
    same parameter twice, falls to [base_ooip] (which is [ooip], line 263). *)
Definition matrix_temp_ooip (b : inputs) (param1 param2 : param) (p1 p2 : Q) : Q :=
  match param1, param2 with
  | Area, Thickness => (7758 * p1 * p2 * porosity_decimal b
        * (1 - water_saturation_decimal b)) / oil_fvf b
  | Area, Porosity => (7758 * p1 * thickness b * (p2 / 100)
        * (1 - water_saturation_decimal b)) / oil_fvf b
  | Area, WaterSaturation => (7758 * p1 * thickness b * porosity_decimal b
        * (1 - (p2 / 100))) / oil_fvf b
  | Area, OilFVF => (7758 * p1 * thickness b * porosity_decimal b
        * (1 - water_saturation_decimal b)) / p2
  | Area, RecoveryFactor => (7758 * p1 * thickness b * porosity_decimal b
        * (1 - water_saturation_decimal b)) / oil_fvf b
  | Thickness, Porosity => (7758 * area b * p1 * (p2 / 100)
        * (1 - water_saturation_decimal b)) / oil_fvf b
  | Thickness, WaterSaturation => (7758 * area b * p1 * porosity_decimal b
        * (1 - (p2 / 100))) / oil_fvf b
  | Thickness, OilFVF => (7758 * area b * p1 * porosity_decimal b
        * (1 - water_saturation_decimal b)) / p2
  | Thickness, RecoveryFactor => (7758 * area b * p1 * porosity_decimal b
        * (1 - water_saturation_decimal b)) / oil_fvf b
  | Porosity, WaterSaturation => (7758 * area b * thickness b * (p1 / 100)
        * (1 - (p2 / 100))) / oil_fvf b
  | Porosity, OilFVF => (7758 * area b * thickness b * (p1 / 100)
        * (1 - water_saturation_decimal b)) / p2
  | Porosity, RecoveryFactor => (7758 * area b * thickness b * (p1 / 100)
        * (1 - water_saturation_decimal b)) / oil_fvf b
  | WaterSaturation, OilFVF => (7758 * area b * thickness b * porosity_decimal b
        * (1 - (p1 / 100))) / p2
  | WaterSaturation, RecoveryFactor => (7758 * area b * thickness b
        * porosity_decimal b * (1 - (p1 / 100))) / oil_fvf b
  | OilFVF, RecoveryFactor => (7758 * area b * thickness b * porosity_decimal b
        * (1 - water_saturation_decimal b)) / p1
  | _, _ => ooip_of b
  end.

(** [temp_recoverable], lines 454-461. *)
Definition matrix_temp_recoverable (b : inputs) (param1 param2 : param) (p1 p2 : Q) : Q :=
  let temp_ooip := matrix_temp_ooip b param1 param2 p1 p2 in
  match param1, param2 with
  | RecoveryFactor, RecoveryFactor => temp_ooip * (p1 / 100)
  | RecoveryFactor, _ => temp_ooip * (p1 / 100)
  | _, RecoveryFactor => temp_ooip * (p2 / 100)
  | _, _ => temp_ooip * recovery_factor_decimal b
  end.

(** [ooip_matrix] and [recoverable_matrix] as lists of rows, row [i] for
    the i-th value of [param1_range], column [j] for the j-th value of
    [param2_range]. *)
Definition ooip_matrix (b : inputs) (param1 param2 : param) : list (list Q) :=
  map (fun p1 => map (fun p2 => matrix_temp_ooip b param1 param2 p1 p2)
                     (matrix_range b param2))
      (matrix_range b param1).

Definition recoverable_matrix (b : inputs) (param1 param2 : param) : list (list Q) :=
  map (fun p1 => map (fun p2 => matrix_temp_recoverable b param1 param2 p1 p2)
                     (matrix_range b param2))
      (matrix_range b param1).

(** Cell [(i, j)] of a grid. *)
Definition cell (m : list (list Q)) (i j : nat) : Q := nth j (nth i m []) 0.

(** ** Sheet names for the Excel export (lines 19-39) *)

Module SheetNames.

Local Open Scope string_scope.

(** The characters replaced by [_] on line 22. *)
Definition invalid_chars : list ascii :=
  [":"; "\"; "/"; "?"; "*"; "["; "]"]%char.

(** [s.replace(c, r)] for a single character [c]. *)
Fixpoint replace_char (c r : ascii) (s : string) : string :=
  match s with
  | EmptyString => EmptyString
  | String a s' => String (if Ascii.eqb a c then r else a) (replace_char c r s')
  end.

(** Decimal rendering of a natural number, as [f"{i}"] does. *)
Fixpoint decimal_aux (fuel n : nat) (acc : string) : string :=
  match fuel with
  | O => acc
  | S f =>
      let acc' := String (ascii_of_nat (48 + Nat.modulo n 10)) acc in
      if Nat.ltb n 10 then acc' else decimal_aux f (Nat.div n 10) acc'
  end.

Definition string_of_nat (n : nat) : string := decimal_aux (S n) n "".

Definition mem (s : string) (l : list string) : bool := existsb (String.eqb s) l.

(** The [while] loop of lines 34-36, from [i = 1].  The candidates
    [name_1], [name_2], ... are pairwise distinct, so at most
    [len(used_names)] of them are taken: [S (length used_names)] tests
    always reach a free one. *)
Fixpoint find_suffix (name : string) (used_names : list string) (i fuel : nat) : nat :=
  match fuel with
  | O => i
  | S f =>
      if mem (name ++ "_" ++ string_of_nat i) used_names
      then find_suffix name used_names (S i) f
      else i
  end.

(** [get_unique_sheet_name(base_name, used_names)]: the returned name and
    [used_names] after the [append] (the caller's list is mutated in
    place; here it is threaded through). *)
Definition get_unique_sheet_name (base_name : string) (used_names : list string)
  : string * list string :=
  let base_name := fold_left (fun s c => replace_char c "_" s) invalid_chars base_name in
  let name := substring 0 31 base_name in
  if negb (mem name used_names) then (name, app used_names [name])
  else
    let i := find_suffix name used_names 1 (S (List.length used_names)) in
    let unique_name := name ++ "_" ++ string_of_nat i in
    (unique_name, app used_names [unique_name]).

(** Reading back a string of decimal digits, [int(s)] for such strings;
    used to show that [string_of_nat] loses no information. *)
Fixpoint nat_of_decimal (s : string) (acc : nat) : nat :=
  match s with
  | EmptyString => acc
  | String c s' => nat_of_decimal s' (acc * 10 + (nat_of_ascii c - 48))
  end.

(** The sheets requested by the export, in the order of lines 529, 558,
    578, 594 and 600.  [sensitivity_df] and [ooip_matrix] are always bound
    when the button is pressed: every tab's body runs on each rerun. *)
Definition export_sheet_requests (param1 param2 : string) : list string :=
  ["Base Case"; "Single Parameter Sensitivity"; "Tornado Plot Data";
   "OOIP Matrix - " ++ param1 ++ " vs " ++ param2;
   "Recoverable Matrix - " ++ param1 ++ " vs " ++ param2].

(** The successive calls, threading [used_sheet_names] from [[]]. *)
Fixpoint name_sheets (requests used_names : list string) : list string * list string :=
  match requests with
  | [] => ([], used_names)
  | r :: rs =>
      let (n, used1) := get_unique_sheet_name r used_names in
      let (ns, used2) := name_sheets rs used1 in
      (n :: ns, used2)
  end.

Definition export_sheet_names (param1 param2 : string) : list string :=
  fst (name_sheets (export_sheet_requests param1 param2) []).

End SheetNames.

(** ** Range metrics of the single parameter sweep (lines 233-253) *)

(** Python's built-in [min]: [ValueError] ([None]) on an empty sequence;
    otherwise the first item, replaced by every later item that compares
    strictly smaller. *)
Definition py_min (l : list Q) : option Q :=
  match l with
  | [] => None
  | x :: t => Some (fold_left (fun m y => if Qlt_le_dec y m then y else m) t x)
  end.

(** [max]: the same with "strictly greater". *)
Definition py_max (l : list Q) : option Q :=
  match l with
  | [] => None
  | x :: t => Some (fold_left (fun m y => if Qlt_le_dec m y then y else m) t x)
  end.

Record range_metrics := mk_range_metrics {
  min_ooip : Q; max_ooip : Q; min_recoverable : Q; max_recoverable : Q;
  ooip_variation_pct : Q; recoverable_variation_pct : Q
}.

(** Lines 233-253: the four extremes and the two "% variation" figures
    [(max - min) / base * 100].  The division is the rational one: the
    theorems below only use it with a positive base. *)
Definition sensitivity_metrics (b : inputs) (p : param) : option range_metrics :=
  let ooip_values := map sw_ooip (sweep b p) in
  let recoverable_values := map sw_recoverable (sweep b p) in
  match py_min ooip_values, py_max ooip_values,
        py_min recoverable_values, py_max recoverable_values with
  | Some min_o, Some max_o, Some min_r, Some max_r =>
      Some (mk_range_metrics min_o max_o min_r max_r
              ((max_o - min_o) / ooip_of b * 100)
              ((max_r - min_r) / recoverable_reserves_of b * 100))
  | _, _, _, _ => None
  end.

(** ** [eval(param.lower().replace(' ', '_'))] (lines 224, 401-408) *)

(** [str.lower()] on ASCII text. *)
Definition lower_ascii (c : ascii) : ascii :=
  let n := nat_of_ascii c in
  if (Nat.leb 65 n && Nat.leb n 90)%bool then ascii_of_nat (n + 32) else c.

Fixpoint py_lower (s : string) : string :=
  match s with
  | EmptyString => EmptyString
  | String c s' => String (lower_ascii c) (py_lower s')
  end.

(** The numeric module-level names bound before line 224. *)
Definition script_globals (b : inputs) : list (string * Q) :=
  [("area", area b); ("thickness", thickness b); ("porosity", porosity b);
   ("water_saturation", water_saturation b); ("oil_fvf", oil_fvf b);
   ("recovery_factor", recovery_factor b);
   ("porosity_decimal", porosity_decimal b);
   ("water_saturation_decimal", water_saturation_decimal b);
   ("recovery_factor_decimal", recovery_factor_decimal b);
   ("ooip", ooip_of b); ("recoverable_reserves", recoverable_reserves_of b)]%string.

(** Name lookup; [None] is a [NameError]. *)
Fixpoint lookup_name (env : list (string * Q)) (x : string) : option Q :=
  match env with
  | [] => None
  | (y, v) :: env' => if String.eqb x y then Some v else lookup_name env' x
  end.

Definition eval_param_name (b : inputs) (p : param) : option Q :=
  lookup_name (script_globals b)
    (SheetNames.replace_char " " "_" (py_lower (param_name p))).

(** Position of a parameter in the select-box lists: the [elif] chain of
    lines 419-448 lists each pair with [param1] before [param2]. *)
Definition param_index (p : param) : nat :=
  match p with
  | Area => 0 | Thickness => 1 | Porosity => 2 | WaterSaturation => 3
  | OilFVF => 4 | RecoveryFactor => 5
  end%nat.

(** ** Sample inputs: the UI defaults (lines 58-109) *)

Definition default_inputs : inputs := mk_inputs 1000 50 20 25 1.3 30.

(** ** Reading of the specification

    The domain of §3 of the specification: every field positive, porosity
    and water saturation fractions in (0, 1), i.e. in (0, 100) percent. *)
Definition valid (b : inputs) : Prop :=
  0 < area b /\ 0 < thickness b /\ 0 < porosity b /\ porosity b < 100 /\
  0 < water_saturation b /\ water_saturation b < 100 /\
  0 < oil_fvf b /\ 0 < recovery_factor b.

(** The sweep span the specification states (§4.2): [0.5, 1.5] times the
    base value, [0.8, 1.2] times it for the formation volume factor. *)
Definition claimed_sweep_lo (b : inputs) (p : param) : Q :=
  match p with OilFVF => param_get b p * 0.8 | _ => param_get b p * 0.5 end.

Definition claimed_sweep_hi (b : inputs) (p : param) : Q :=
  match p with OilFVF => param_get b p * 1.2 | _ => param_get b p * 1.5 end.

(** ** General facts *)

Lemma map_const_eq {A B C : Type} (f : A -> C) (g : B -> C) l1 l2 :
  length l1 = length l2 -> (forall x y, f x = g y) -> map f l1 = map g l2.
Proof.
  revert l2; induction l1 as [|x l1 IH]; intros [|y l2] Hlen Hfg;
    simpl in *; try discriminate; [reflexivity|].
  rewrite (Hfg x y), (IH l2); auto.
Qed.

Lemma map_const_repeat {A B : Type} (c : B) (l : list A) :
  map (fun _ => c) l = repeat c (length l).
Proof. induction l as [|x l IH]; simpl; [reflexivity | now rewrite IH]. Qed.

Lemma linspace_length start stop num : length (linspace start stop num) = num.
Proof.
  destruct num as [|[|m]]; simpl; try reflexivity.
  rewrite length_app, length_map, length_seq; simpl; lia.
Qed.

Lemma matrix_range_length b p : length (matrix_range b p) = matrix_points.
Proof. apply linspace_length. Qed.

Lemma param_range_length b p : length (param_range b p) = sweep_points.
Proof. destruct p; apply linspace_length. Qed.

Lemma nth_map_seq {A : Type} (f : nat -> A) m i d :
  (i < m)%nat -> nth i (map f (seq 0 m)) d = f i.
Proof.
  intros Hi.
  rewrite nth_indep with (d' := f 0%nat) by (rewrite length_map, length_seq; lia).
  rewrite map_nth, seq_nth by lia. reflexivity.
Qed.

(** The i-th point of [linspace start stop (S m)], [m >= 1]. *)
Lemma linspace_nth start stop m i :
  (1 <= m)%nat -> (i <= m)%nat ->
  nth i (linspace start stop (S m)) 0
  == start + inject_Z (Z.of_nat i) * (stop - start) / inject_Z (Z.of_nat m).
Proof.
  intros Hm Hi.
  destruct m as [|m']; [lia|].
  unfold linspace.
  assert (Hm0 : ~ inject_Z (Z.of_nat (S m')) == 0).
  { change 0 with (inject_Z 0). rewrite inject_Z_injective. lia. }
  destruct (Nat.eq_dec i (S m')) as [->|Hlt].
  - rewrite app_nth2; rewrite length_map, length_seq; [|lia].
    rewrite Nat.sub_diag. simpl nth. field. exact Hm0.
  - rewrite app_nth1 by (rewrite length_map, length_seq; lia).
    rewrite nth_map_seq by lia.
    field. exact Hm0.
Qed.

Lemma linspace_nondecreasing start stop m i j :
  (1 <= m)%nat -> start <= stop -> (i <= j)%nat -> (j <= m)%nat ->
  nth i (linspace start stop (S m)) 0 <= nth j (linspace start stop (S m)) 0.
Proof.
  intros Hm Hle Hij Hj.
  rewrite (linspace_nth start stop m i), (linspace_nth start stop m j) by lia.
  assert (Hpos : 0 < inject_Z (Z.of_nat m)).
  { change 0 with (inject_Z 0). rewrite <- Zlt_Qlt. lia. }
  assert (Hij' : inject_Z (Z.of_nat i) <= inject_Z (Z.of_nat j)).
  { rewrite <- Zle_Qle. lia. }
  unfold Qdiv.
  apply Qplus_le_r.
  apply Qmult_le_compat_r; [|apply Qlt_le_weak, Qinv_lt_0_compat; exact Hpos].
  apply Qmult_le_compat_r; [exact Hij'|].
  lra.
Qed.

Lemma scale_le (x c d : Q) : 0 <= x -> c <= d -> x * c <= x * d.
Proof.
  intros Hx Hcd. rewrite !(Qmult_comm x). apply Qmult_le_compat_r; assumption.
Qed.

Lemma sweep_entry_formula b p v :
  sweep_temp_ooip b p v = ooip_of (param_set b p v) /\
  sweep_temp_recoverable b p v = recoverable_reserves_of (param_set b p v).
Proof. destruct p; split; reflexivity. Qed.

Lemma ooip_of_recovery_factor b r :
  ooip_of (param_set b RecoveryFactor r) = ooip_of b.
Proof. reflexivity. Qed.

Lemma matrix_diag_cell b p x y : matrix_temp_ooip b p p x y = ooip_of b.
Proof. destruct p; reflexivity. Qed.

Lemma div100 (a : Q) : a / 100 = a * (1 # 100).
Proof. reflexivity. Qed.

Lemma div_lt_r (a b c : Q) : 0 < c -> a < b -> a / c < b / c.
Proof.
  intros Hc Hab. unfold Qdiv.
  apply Qmult_lt_r; [apply Qinv_lt_0_compat; exact Hc | exact Hab].
Qed.

Lemma div_lt_inv (a x y : Q) : 0 < a -> 0 < x -> x < y -> a / y < a / x.
Proof.
  intros Ha Hx Hxy. unfold Qdiv.
  apply Qmult_lt_l; [exact Ha|].
  apply (Qinv_lt_contravar x y); [exact Hx | lra | exact Hxy].
Qed.

Ltac unfold_ooip :=
  unfold ooip_of, param_set, porosity_decimal, water_saturation_decimal;
  cbn [area thickness porosity water_saturation oil_fvf recovery_factor];
  rewrite ?div100.

Ltac pos_product :=
  repeat apply Qmult_lt_0_compat; try assumption; lra.

Lemma ooip_area_increasing b x y :
  valid b -> x < y -> ooip_of (param_set b Area x) < ooip_of (param_set b Area y).
Proof.
  intros (Ha & Hh & Hp & Hp' & Hw & Hw' & Hf & Hr) Hxy. unfold_ooip.
  apply div_lt_r; [exact Hf|].
  apply Qmult_lt_r; [lra|]. apply Qmult_lt_r; [lra|].
  apply Qmult_lt_r; [exact Hh|]. lra.
Qed.

Lemma ooip_thickness_increasing b x y :
  valid b -> x < y ->
  ooip_of (param_set b Thickness x) < ooip_of (param_set b Thickness y).
Proof.
  intros (Ha & Hh & Hp & Hp' & Hw & Hw' & Hf & Hr) Hxy. unfold_ooip.
  apply div_lt_r; [exact Hf|].
  apply Qmult_lt_r; [lra|]. apply Qmult_lt_r; [lra|].
  apply Qmult_lt_l; [pos_product | exact Hxy].
Qed.

Lemma ooip_porosity_increasing b x y :
  valid b -> x < y ->
  ooip_of (param_set b Porosity x) < ooip_of (param_set b Porosity y).
Proof.
  intros (Ha & Hh & Hp & Hp' & Hw & Hw' & Hf & Hr) Hxy. unfold_ooip.
  apply div_lt_r; [exact Hf|].
  apply Qmult_lt_r; [lra|].
  apply Qmult_lt_l; [pos_product | lra].
Qed.

Lemma ooip_water_saturation_decreasing b x y :
  valid b -> x < y ->
  ooip_of (param_set b WaterSaturation y) < ooip_of (param_set b WaterSaturation x).
Proof.
  intros (Ha & Hh & Hp & Hp' & Hw & Hw' & Hf & Hr) Hxy. unfold_ooip.
  apply div_lt_r; [exact Hf|].
  apply Qmult_lt_l; [pos_product | lra].
Qed.

Lemma ooip_oil_fvf_decreasing b x y :
  valid b -> 0 < x -> x < y ->
  ooip_of (param_set b OilFVF y) < ooip_of (param_set b OilFVF x).
Proof.
  intros (Ha & Hh & Hp & Hp' & Hw & Hw' & Hf & Hr) Hx Hxy. unfold_ooip.
  apply div_lt_inv; [pos_product | exact Hx | exact Hxy].
Qed.

(** ** Claims *)

(** C1.  For oil_fvf > 0 the Formula Engine returns
    ooip = 7758 * area * thickness * porosity * (1 - water_saturation) / oil_fvf
    (percent fields divided by 100) and recoverable = ooip * recovery_factor,
    exactly. *)
Theorem formula_engine_spec (b : inputs) :
  0 < oil_fvf b ->
  formula_engine b =
    Some (mk_estimate
      (7758 * area b * thickness b * (porosity b / 100)
         * (1 - water_saturation b / 100) / oil_fvf b)
      (7758 * area b * thickness b * (porosity b / 100)
         * (1 - water_saturation b / 100) / oil_fvf b * (recovery_factor b / 100))).
Proof.
  intros Hpos.
  unfold formula_engine, py_div.
  destruct (Qeq_bool (oil_fvf b) 0) eqn:E.
  - apply Qeq_bool_eq in E. lra.
  - reflexivity.
Qed.

Lemma formula_engine_spec_witness :
  0 < oil_fvf default_inputs /\
  formula_engine default_inputs =
    Some (mk_estimate
      (7758 * area default_inputs * thickness default_inputs
         * (porosity default_inputs / 100)
         * (1 - water_saturation default_inputs / 100) / oil_fvf default_inputs)
      (7758 * area default_inputs * thickness default_inputs
         * (porosity default_inputs / 100)
         * (1 - water_saturation default_inputs / 100) / oil_fvf default_inputs
         * (recovery_factor default_inputs / 100))).
Proof.
  split; [vm_compute; reflexivity|].
  apply formula_engine_spec. vm_compute. reflexivity.
Defined.

(** C2.  OOIP never depends on recovery_factor: changing the base recovery
    factor leaves every OOIP value of the sweep, the tornado and the matrix
    unchanged; the sweep over recovery_factor has every OOIP entry equal to
    the base OOIP, and its tornado entry has ooip_low = ooip_high = base
    OOIP. *)
Theorem ooip_independent_of_recovery_factor (b : inputs) (r : Q) :
  let b' := param_set b RecoveryFactor r in
  (forall p, map sw_ooip (sweep b' p) = map sw_ooip (sweep b p)) /\
  Forall (fun row => sw_ooip row = ooip_of b) (sweep b RecoveryFactor) /\
  (forall p, ooip_low (tornado_entry_of b' p) = ooip_low (tornado_entry_of b p) /\
             ooip_high (tornado_entry_of b' p) = ooip_high (tornado_entry_of b p)) /\
  ooip_low (tornado_entry_of b RecoveryFactor) = ooip_of b /\
  ooip_high (tornado_entry_of b RecoveryFactor) = ooip_of b /\
  (forall p1 p2, ooip_matrix b' p1 p2 = ooip_matrix b p1 p2).
Proof.
  intros b'. split; [|split; [|split; [|split; [|split]]]].
  - intros p; destruct p; try reflexivity.
  - apply Forall_forall. intros row Hin.
    unfold sweep in Hin. apply in_map_iff in Hin as [v [<- _]]. reflexivity.
  - intros p; destruct p; split; reflexivity.
  - reflexivity.
  - reflexivity.
  - intros p1 p2; unfold ooip_matrix.
    destruct p1, p2;
      first
        [ reflexivity
        | apply map_ext; intros x;
          apply map_const_eq; [now rewrite !matrix_range_length|];
          intros; reflexivity
        | apply map_const_eq; [now rewrite !matrix_range_length|];
          intros; first
            [ reflexivity
            | apply map_const_eq; [now rewrite !matrix_range_length|];
              intros; reflexivity ] ].
Qed.

(** C3.  For a base value >= 0 (the UI domain), the sweep has exactly
    [sweep_points] = 100 rows whose values are evenly spaced from
    [claimed_sweep_lo] to [claimed_sweep_hi] (0.5x..1.5x, or 0.8x..1.2x for
    oil_fvf) and non-decreasing; every row is the Formula Engine on the base
    inputs with only the swept field replaced by the row's value. *)
Theorem sweep_spec (b : inputs) (p : param) :
  0 <= param_get b p ->
  length (sweep b p) = sweep_points /\
  (forall i, (i < sweep_points)%nat ->
     nth i (map sw_value (sweep b p)) 0
     == claimed_sweep_lo b p
        + inject_Z (Z.of_nat i) * (claimed_sweep_hi b p - claimed_sweep_lo b p)
          / inject_Z (Z.of_nat (sweep_points - 1))) /\
  (forall i j, (i <= j)%nat -> (j < sweep_points)%nat ->
     nth i (map sw_value (sweep b p)) 0 <= nth j (map sw_value (sweep b p)) 0) /\
  Forall (fun row =>
            sw_ooip row = ooip_of (param_set b p (sw_value row)) /\
            sw_recoverable row = recoverable_reserves_of (param_set b p (sw_value row)))
         (sweep b p).
Proof.
  intros Hbase.
  assert (Hvals : map sw_value (sweep b p)
                  = linspace (claimed_sweep_lo b p) (claimed_sweep_hi b p) (S 99)).
  { unfold sweep. rewrite map_map. simpl. rewrite map_id.
    destruct p; reflexivity. }
  assert (Hlohi : claimed_sweep_lo b p <= claimed_sweep_hi b p).
  { destruct p; unfold claimed_sweep_lo, claimed_sweep_hi;
      apply scale_le; auto; vm_compute; discriminate. }
  split; [|split; [|split]].
  - unfold sweep. rewrite length_map. apply param_range_length.
  - intros i Hi. rewrite Hvals. apply linspace_nth; unfold sweep_points in *; lia.
  - intros i j Hij Hj. rewrite Hvals.
    apply linspace_nondecreasing; try exact Hlohi; unfold sweep_points in *; lia.
  - apply Forall_forall. intros row Hin.
    unfold sweep in Hin. apply in_map_iff in Hin as [v [<- _]].
    apply sweep_entry_formula.
Qed.

Lemma sweep_spec_witness :
  0 <= param_get default_inputs OilFVF /\
  length (sweep default_inputs OilFVF) = sweep_points /\
  (forall i, (i < sweep_points)%nat ->
     nth i (map sw_value (sweep default_inputs OilFVF)) 0
     == claimed_sweep_lo default_inputs OilFVF
        + inject_Z (Z.of_nat i)
          * (claimed_sweep_hi default_inputs OilFVF - claimed_sweep_lo default_inputs OilFVF)
          / inject_Z (Z.of_nat (sweep_points - 1))) /\
  (forall i j, (i <= j)%nat -> (j < sweep_points)%nat ->
     nth i (map sw_value (sweep default_inputs OilFVF)) 0
     <= nth j (map sw_value (sweep default_inputs OilFVF)) 0) /\
  Forall (fun row =>
            sw_ooip row = ooip_of (param_set default_inputs OilFVF (sw_value row)) /\
            sw_recoverable row
              = recoverable_reserves_of (param_set default_inputs OilFVF (sw_value row)))
         (sweep default_inputs OilFVF).
Proof.
  split; [vm_compute; discriminate|].
  apply sweep_spec. vm_compute. discriminate.
Defined.

(** C4.  Tornado with variation 0.2: for oil_fvf, ooip_low is evaluated at
    base x 1.2 and ooip_high at base x 0.8; for recovery_factor the
    recoverable bounds are base OOIP times the perturbed recovery factor;
    for every other parameter the recoverable bounds are the OOIP bounds
    times the base recovery factor. *)
Theorem tornado_spec (b : inputs) :
  ooip_low (tornado_entry_of b OilFVF) = ooip_of (param_set b OilFVF (oil_fvf b * 1.2)) /\
  ooip_high (tornado_entry_of b OilFVF) = ooip_of (param_set b OilFVF (oil_fvf b * 0.8)) /\
  recoverable_low (tornado_entry_of b RecoveryFactor)
    = ooip_of b * (recovery_factor b * 0.8 / 100) /\
  recoverable_high (tornado_entry_of b RecoveryFactor)
    = ooip_of b * (recovery_factor b * 1.2 / 100) /\
  (forall p, p <> RecoveryFactor ->
     recoverable_low (tornado_entry_of b p)
       = ooip_low (tornado_entry_of b p) * recovery_factor_decimal b /\
     recoverable_high (tornado_entry_of b p)
       = ooip_high (tornado_entry_of b p) * recovery_factor_decimal b).
Proof.
  split; [|split; [|split; [|split]]]; try reflexivity.
  intros p Hp. destruct p; try (split; reflexivity). congruence.
Qed.

(** C6.  With the same parameter on both axes the matrix evaluator is
    defined (no error) and its OOIP grid is 10 x 10 copies of the base
    OOIP. *)
Theorem matrix_same_param (b : inputs) (p : param) :
  ooip_matrix b p p = repeat (repeat (ooip_of b) matrix_points) matrix_points.
Proof.
  unfold ooip_matrix.
  transitivity (map (fun _ => repeat (ooip_of b) matrix_points) (matrix_range b p)).
  - apply map_ext. intros x.
    rewrite <- (matrix_range_length b p), <- map_const_repeat.
    apply map_ext. intros y. apply matrix_diag_cell.
  - now rewrite map_const_repeat, matrix_range_length.
Qed.

(** C7.  On valid inputs OOIP is strictly increasing in area, thickness
    and porosity, strictly decreasing in water_saturation and (over
    positive values) in oil_fvf, and independent of recovery_factor. *)
Theorem ooip_monotone (b : inputs) (x y : Q) :
  valid b -> 0 < x -> x < y ->
  ooip_of (param_set b Area x) < ooip_of (param_set b Area y) /\
  ooip_of (param_set b Thickness x) < ooip_of (param_set b Thickness y) /\
  ooip_of (param_set b Porosity x) < ooip_of (param_set b Porosity y) /\
  ooip_of (param_set b WaterSaturation y) < ooip_of (param_set b WaterSaturation x) /\
  ooip_of (param_set b OilFVF y) < ooip_of (param_set b OilFVF x) /\
  (forall r, ooip_of (param_set b RecoveryFactor r) = ooip_of b).
Proof.
  intros Hv Hx Hxy.
  split; [apply ooip_area_increasing; assumption|].
  split; [apply ooip_thickness_increasing; assumption|].
  split; [apply ooip_porosity_increasing; assumption|].
  split; [apply ooip_water_saturation_decreasing; assumption|].
  split; [apply ooip_oil_fvf_decreasing; assumption|].
  intros r. apply ooip_of_recovery_factor.
Qed.

Lemma ooip_monotone_witness :
  valid default_inputs /\ 0 < 10 /\ 10 < 20 /\
  ooip_of (param_set default_inputs Area 10) < ooip_of (param_set default_inputs Area 20) /\
  ooip_of (param_set default_inputs Thickness 10)
    < ooip_of (param_set default_inputs Thickness 20) /\
  ooip_of (param_set default_inputs Porosity 10)
    < ooip_of (param_set default_inputs Porosity 20) /\
  ooip_of (param_set default_inputs WaterSaturation 20)
    < ooip_of (param_set default_inputs WaterSaturation 10) /\
  ooip_of (param_set default_inputs OilFVF 20) < ooip_of (param_set default_inputs OilFVF 10) /\
  (forall r, ooip_of (param_set default_inputs RecoveryFactor r) = ooip_of default_inputs).
Proof.
  assert (Hv : valid default_inputs)
    by (unfold valid; vm_compute; repeat split; reflexivity).
  split; [exact Hv|]. split; [reflexivity|]. split; [reflexivity|].
  apply ooip_monotone; [exact Hv | reflexivity | reflexivity].
Defined.

(** C10.  The tornado applies no low/high swap for water_saturation:
    ooip_low is the Formula Engine at water_saturation x 0.8 and ooip_high
    at x 1.2, so on valid inputs the value labelled ooip_low is strictly
    greater than the one labelled ooip_high; area, thickness and porosity
    are evaluated the same way (low value for ooip_low), and only oil_fvf
    is swapped. *)
Theorem tornado_water_saturation_unswapped (b : inputs) :
  valid b ->
  ooip_low (tornado_entry_of b WaterSaturation)
    = ooip_of (param_set b WaterSaturation (water_saturation b * 0.8)) /\
  ooip_high (tornado_entry_of b WaterSaturation)
    = ooip_of (param_set b WaterSaturation (water_saturation b * 1.2)) /\
  ooip_high (tornado_entry_of b WaterSaturation)
    < ooip_low (tornado_entry_of b WaterSaturation) /\
  (forall p, In p [Area; Thickness; Porosity] ->
     ooip_low (tornado_entry_of b p) = ooip_of (param_set b p (param_get b p * 0.8)) /\
     ooip_high (tornado_entry_of b p) = ooip_of (param_set b p (param_get b p * 1.2))) /\
  ooip_low (tornado_entry_of b OilFVF) = ooip_of (param_set b OilFVF (oil_fvf b * 1.2)) /\
  ooip_high (tornado_entry_of b OilFVF) = ooip_of (param_set b OilFVF (oil_fvf b * 0.8)).
Proof.
  intros Hv.
  assert (Hws : 0 < water_saturation b) by apply Hv.
  split; [reflexivity|]. split; [reflexivity|].
  split.
  - change (ooip_of (param_set b WaterSaturation (water_saturation b * 1.2))
            < ooip_of (param_set b WaterSaturation (water_saturation b * 0.8))).
    apply ooip_water_saturation_decreasing; [exact Hv | lra].
  - split; [|split; reflexivity].
    intros p Hp. simpl in Hp.
    destruct Hp as [<- | [<- | [<- | []]]]; split; reflexivity.
Qed.

Lemma tornado_water_saturation_unswapped_witness :
  valid default_inputs /\
  ooip_low (tornado_entry_of default_inputs WaterSaturation)
    = ooip_of (param_set default_inputs WaterSaturation
                 (water_saturation default_inputs * 0.8)) /\
  ooip_high (tornado_entry_of default_inputs WaterSaturation)
    = ooip_of (param_set default_inputs WaterSaturation
                 (water_saturation default_inputs * 1.2)) /\
  ooip_high (tornado_entry_of default_inputs WaterSaturation)
    < ooip_low (tornado_entry_of default_inputs WaterSaturation) /\
  (forall p, In p [Area; Thickness; Porosity] ->
     ooip_low (tornado_entry_of default_inputs p)
       = ooip_of (param_set default_inputs p (param_get default_inputs p * 0.8)) /\
     ooip_high (tornado_entry_of default_inputs p)
       = ooip_of (param_set default_inputs p (param_get default_inputs p * 1.2))) /\
  ooip_low (tornado_entry_of default_inputs OilFVF)
    = ooip_of (param_set default_inputs OilFVF (oil_fvf default_inputs * 1.2)) /\
  ooip_high (tornado_entry_of default_inputs OilFVF)
    = ooip_of (param_set default_inputs OilFVF (oil_fvf default_inputs * 0.8)).
Proof.
  assert (Hv : valid default_inputs)
    by (unfold valid; vm_compute; repeat split; reflexivity).
  split; [exact Hv|].
  apply tornado_water_saturation_unswapped. exact Hv.
Defined.

(** C5 (code defect).  The matrix evaluator only evaluates the fifteen
    ordered pairs of its [elif] chain.  With the UI defaults,
    param1 = Thickness and param2 = Area, cell (0, 0) is the base OOIP,
    not the Formula Engine with thickness = 40 and area = 800 (the first
    swept values). *)
Theorem matrix_reversed_pair_flat :
  nth 0 (matrix_range default_inputs Thickness) 0 == 40 /\
  nth 0 (matrix_range default_inputs Area) 0 == 800 /\
  cell (ooip_matrix default_inputs Thickness Area) 0 0 = ooip_of default_inputs /\
  ~ (cell (ooip_matrix default_inputs Thickness Area) 0 0
     == ooip_of (param_set (param_set default_inputs Thickness 40) Area 800)).
Proof.
  split; [vm_compute; reflexivity|].
  split; [vm_compute; reflexivity|].
  split; [reflexivity|].
  vm_compute. discriminate.
Qed.

(** C9 (code defect).  The collision branch appends [_1] after the
    truncation to 31 characters: a second "Recoverable Matrix - Water
    Saturation vs Recovery Factor" sheet gets a 33 character name. *)
Theorem sheet_name_suffix_exceeds_31 :
  let '(name, used) :=
    SheetNames.get_unique_sheet_name
      "Recoverable Matrix - Water Saturation vs Recovery Factor"
      ["Recoverable Matrix - Water Satu"%string] in
  name = "Recoverable Matrix - Water Satu_1"%string /\
  String.length name = 33%nat /\
  used = ["Recoverable Matrix - Water Satu"; "Recoverable Matrix - Water Satu_1"]%string.
Proof. vm_compute. repeat split. Qed.

(** ** Sheet names: further properties *)

Section SheetNameFacts.

Import SheetNames.
Local Open Scope nat_scope.
Local Open Scope string_scope.

Definition cand (name : string) (i : nat) : string := name ++ "_" ++ string_of_nat i.

Lemma mem_In s l : mem s l = true <-> In s l.
Proof.
  unfold mem. rewrite existsb_exists. split.
  - intros [x [Hx E]]. apply String.eqb_eq in E. subst. exact Hx.
  - intros H. exists s. split; [exact H | apply String.eqb_refl].
Qed.

Lemma decimal_aux_read fuel : forall n acc k, (n < fuel)%nat ->
  exists e, nat_of_decimal (decimal_aux fuel n acc) k
            = nat_of_decimal acc (k * 10 ^ e + n).
Proof.
  induction fuel as [|f IH]; intros n acc k Hn; [lia|].
  assert (Hd : nat_of_ascii (ascii_of_nat (48 + n mod 10)) - 48 = n mod 10).
  { rewrite nat_ascii_embedding; [lia|].
    pose proof (Nat.mod_upper_bound n 10). lia. }
  cbn [decimal_aux]. destruct (Nat.ltb n 10) eqn:E.
  - apply Nat.ltb_lt in E. exists 1%nat. cbn [nat_of_decimal]. rewrite Hd.
    rewrite Nat.mod_small by exact E. f_equal; lia.
  - apply Nat.ltb_ge in E.
    destruct (IH (n / 10) (String (ascii_of_nat (48 + n mod 10)) acc) k)
      as [e He].
    { pose proof (Nat.div_lt n 10). lia. }
    exists (S e). rewrite He. cbn [nat_of_decimal]. rewrite Hd.
    f_equal. pose proof (Nat.div_mod_eq n 10). rewrite Nat.pow_succ_r'. nia.
Qed.

Lemma string_of_nat_read n : nat_of_decimal (string_of_nat n) 0 = n.
Proof.
  unfold string_of_nat.
  destruct (decimal_aux_read (S n) n "" 0) as [e He]; [lia|].
  rewrite He. reflexivity.
Qed.

Lemma append_cancel_l (p s1 s2 : string) : p ++ s1 = p ++ s2 -> s1 = s2.
Proof.
  induction p as [|c p IH]; simpl; [auto|]. intros H. injection H. exact IH.
Qed.

Lemma cand_inj name i j : cand name i = cand name j -> i = j.
Proof.
  unfold cand. intros H.
  apply append_cancel_l in H. injection H as H.
  rewrite <- (string_of_nat_read i), <- (string_of_nat_read j), H. reflexivity.
Qed.

Lemma find_suffix_spec name used : forall fuel i,
  mem (cand name (find_suffix name used i fuel)) used = false \/
  (find_suffix name used i fuel = (i + fuel)%nat /\
   forall j, (i <= j < i + fuel)%nat -> In (cand name j) used).
Proof.
  induction fuel as [|f IH]; intros i; cbn [find_suffix].
  - right. split; [lia | intros j Hj; lia].
  - destruct (mem (name ++ "_" ++ string_of_nat i) used) eqn:E.
    + destruct (IH (S i)) as [H | [Hr Hall]]; [left; exact H|].
      right. split; [lia|]. intros j Hj.
      destruct (Nat.eq_dec j i) as [->|Hne].
      * apply mem_In. exact E.
      * apply Hall. lia.
    + left. exact E.
Qed.

Lemma map_inj_NoDup {A B : Type} (f : A -> B) (l : list A) :
  (forall x y, f x = f y -> x = y) -> NoDup l -> NoDup (map f l).
Proof.
  intros Hinj Hnd. induction Hnd as [|x l Hx Hnd IH]; simpl; constructor; auto.
  intros Hin. apply in_map_iff in Hin as [y [E Hy]].
  apply Hinj in E. subst. contradiction.
Qed.

(** The loop stops at a free candidate: the [len(used_names) + 1]
    candidates it may test are pairwise distinct. *)
Lemma find_suffix_free name used :
  mem (cand name (find_suffix name used 1 (S (List.length used)))) used = false.
Proof.
  destruct (find_suffix_spec name used (S (List.length used)) 1) as [H | [_ Hall]];
    [exact H|].
  exfalso.
  assert (Hnd : NoDup (map (cand name) (seq 1 (S (List.length used))))).
  { apply map_inj_NoDup; [intros i j; apply cand_inj | apply seq_NoDup]. }
  apply NoDup_incl_length with (l' := used) in Hnd.
  - rewrite length_map, length_seq in Hnd. lia.
  - intros s Hs. apply in_map_iff in Hs as [j [<- Hj]].
    apply in_seq in Hj. apply Hall. lia.
Qed.

Lemma get_unique_sheet_name_fresh base_name used_names :
  ~ In (fst (get_unique_sheet_name base_name used_names)) used_names /\
  snd (get_unique_sheet_name base_name used_names)
    = app used_names [fst (get_unique_sheet_name base_name used_names)].
Proof.
  unfold get_unique_sheet_name.
  set (name := substring 0 31 _).
  destruct (mem name used_names) eqn:E; cbn [negb fst snd].
  - split; [|reflexivity]. rewrite <- mem_In.
    pose proof (find_suffix_free name used_names) as H. unfold cand in H.
    rewrite H. discriminate.
  - split; [|reflexivity]. rewrite <- mem_In, E. discriminate.
Qed.

Lemma NoDup_snoc {A : Type} (l : list A) (x : A) :
  NoDup l -> ~ In x l -> NoDup (app l [x]).
Proof.
  induction 1 as [|y l Hy Hnd IH]; intros Hx; simpl; constructor.
  - intros [].
  - constructor.
  - intros Hin. apply in_app_iff in Hin as [Hin | [<- | []]].
    + contradiction.
    + apply Hx. left. reflexivity.
  - apply IH. intros Hin. apply Hx. right. exact Hin.
Qed.

Lemma las_app (s1 s2 : string) :
  list_ascii_of_string (s1 ++ s2)
  = app (list_ascii_of_string s1) (list_ascii_of_string s2).
Proof. induction s1 as [|c s1 IH]; simpl; [reflexivity | now rewrite IH]. Qed.

Lemma replace_char_removes c r s :
  c <> r -> ~ In c (list_ascii_of_string (replace_char c r s)).
Proof.
  intros Hcr. induction s as [|a s IH]; simpl; [auto|].
  intros [H | H]; [|contradiction].
  destruct (Ascii.eqb a c) eqn:E; [congruence|].
  subst a. rewrite Ascii.eqb_refl in E. discriminate.
Qed.

Lemma replace_char_keeps_absent c c' r s :
  c <> r -> ~ In c (list_ascii_of_string s) ->
  ~ In c (list_ascii_of_string (replace_char c' r s)).
Proof.
  intros Hcr. induction s as [|a s IH]; simpl; intros Hs; [auto|].
  intros [H | H].
  - destruct (Ascii.eqb a c'); [congruence | apply Hs; left; exact H].
  - apply IH; [intros Hin; apply Hs; right; exact Hin | exact H].
Qed.

Lemma replace_char_absent_id c r s :
  ~ In c (list_ascii_of_string s) -> replace_char c r s = s.
Proof.
  induction s as [|a s IH]; simpl; intros Hs; [reflexivity|].
  destruct (Ascii.eqb a c) eqn:E.
  - apply Ascii.eqb_eq in E. subst. exfalso. apply Hs. left. reflexivity.
  - rewrite IH; [reflexivity|]. intros Hin. apply Hs. right. exact Hin.
Qed.

Lemma sanitize_keeps_absent c cs s :
  c <> "_"%char -> ~ In c (list_ascii_of_string s) ->
  ~ In c (list_ascii_of_string (fold_left (fun s c => replace_char c "_" s) cs s)).
Proof.
  revert s; induction cs as [|c' cs IH]; intros s Hc Hs; simpl; [exact Hs|].
  apply IH; [exact Hc|]. apply replace_char_keeps_absent; assumption.
Qed.

Lemma sanitize_removes c cs s :
  ~ In "_"%char cs -> In c cs ->
  ~ In c (list_ascii_of_string (fold_left (fun s c => replace_char c "_" s) cs s)).
Proof.
  revert s; induction cs as [|c' cs IH]; intros s Hu Hc; simpl; [destruct Hc|].
  destruct Hc as [<- | Hc].
  - apply sanitize_keeps_absent.
    + intros E. subst. apply Hu. left. reflexivity.
    + apply replace_char_removes. intros E. subst. apply Hu. left. reflexivity.
  - apply IH; [intros H; apply Hu; right; exact H | exact Hc].
Qed.

Lemma sanitize_absent_id cs s :
  Forall (fun c => ~ In c (list_ascii_of_string s)) cs ->
  fold_left (fun s c => replace_char c "_" s) cs s = s.
Proof.
  intros H. induction H as [|c cs Hc Hcs IH]; simpl; [reflexivity|].
  rewrite replace_char_absent_id by exact Hc. exact IH.
Qed.

Lemma substring_incl n m s x :
  In x (list_ascii_of_string (substring n m s)) -> In x (list_ascii_of_string s).
Proof.
  revert n m; induction s as [|a s IH]; intros n m H.
  - destruct n, m; simpl in H; exact H.
  - destruct n as [|n]; [destruct m as [|m]|]; simpl in H.
    + destruct H.
    + destruct H as [H | H]; [left; exact H | right; eapply IH; exact H].
    + right. eapply IH. exact H.
Qed.

Lemma substring_length_le n s : String.length (substring 0 n s) <= n.
Proof.
  revert n; induction s as [|a s IH]; intros n; destruct n; simpl; try lia.
  specialize (IH n). lia.
Qed.

Lemma substring_short_id n s : String.length s <= n -> substring 0 n s = s.
Proof.
  revert n; induction s as [|a s IH]; intros n H; destruct n; simpl in *;
    try reflexivity; try lia.
  rewrite IH by lia. reflexivity.
Qed.

Lemma decimal_aux_digits fuel : forall n acc x,
  (forall y, In y (list_ascii_of_string acc) -> 48 <= nat_of_ascii y <= 57) ->
  In x (list_ascii_of_string (decimal_aux fuel n acc)) -> 48 <= nat_of_ascii x <= 57.
Proof.
  induction fuel as [|f IH]; intros n acc x Hacc Hx; cbn [decimal_aux] in Hx;
    [exact (Hacc x Hx)|].
  assert (Hd : forall y, In y (list_ascii_of_string
                 (String (ascii_of_nat (48 + n mod 10)) acc)) ->
               48 <= nat_of_ascii y <= 57).
  { intros y [<- | Hy]; [|exact (Hacc y Hy)].
    pose proof (Nat.mod_upper_bound n 10).
    rewrite nat_ascii_embedding; lia. }
  destruct (Nat.ltb n 10); [exact (Hd x Hx) | exact (IH _ _ x Hd Hx)].
Qed.

Lemma invalid_chars_not_digits c :
  In c invalid_chars -> ~ (48 <= nat_of_ascii c <= 57).
Proof.
  intros Hc. simpl in Hc.
  repeat (destruct Hc as [<- | Hc]; [vm_compute; lia|]). destruct Hc.
Qed.

Lemma underscore_not_invalid : ~ In "_"%char invalid_chars.
Proof. simpl. intuition congruence. Qed.

(** The returned name is not in [used_names]; [used_names] afterwards is
    the old list with that name appended, so a list without duplicates
    keeps none. *)
Theorem get_unique_sheet_name_unique base_name used_names :
  ~ In (fst (get_unique_sheet_name base_name used_names)) used_names /\
  snd (get_unique_sheet_name base_name used_names)
    = app used_names [fst (get_unique_sheet_name base_name used_names)] /\
  (NoDup used_names -> NoDup (snd (get_unique_sheet_name base_name used_names))).
Proof.
  destruct (get_unique_sheet_name_fresh base_name used_names) as [Hn Hu].
  split; [exact Hn|]. split; [exact Hu|].
  intros Hnd. rewrite Hu. apply NoDup_snoc; assumption.
Qed.

(** None of the seven characters Excel forbids (: \ / ? * [ ]) occurs in
    the returned name, suffix included. *)
Theorem get_unique_sheet_name_no_invalid_chars base_name used_names :
  Forall (fun c => ~ In c (list_ascii_of_string
                            (fst (get_unique_sheet_name base_name used_names))))
         invalid_chars.
Proof.
  apply Forall_forall. intros c Hc.
  pose proof (sanitize_removes c invalid_chars base_name underscore_not_invalid Hc)
    as Hs.
  unfold get_unique_sheet_name.
  destruct (mem _ used_names); cbn [negb fst].
  - rewrite !las_app. intros Hin. apply in_app_iff in Hin as [Hin | Hin].
    + apply Hs. eapply substring_incl. exact Hin.
    + simpl in Hin. destruct Hin as [<- | Hin].
      * apply underscore_not_invalid. exact Hc.
      * apply (invalid_chars_not_digits c Hc).
        eapply decimal_aux_digits; [|exact Hin]. intros y [].
  - intros Hin. apply Hs. eapply substring_incl. exact Hin.
Qed.

(** A name of at most 31 characters without forbidden characters that is
    not yet used is returned unchanged and appended. *)
Theorem get_unique_sheet_name_clean base_name used_names :
  Forall (fun c => ~ In c (list_ascii_of_string base_name)) invalid_chars ->
  String.length base_name <= 31 -> ~ In base_name used_names ->
  get_unique_sheet_name base_name used_names = (base_name, app used_names [base_name]).
Proof.
  intros Hclean Hlen Hfree.
  unfold get_unique_sheet_name.
  rewrite sanitize_absent_id by exact Hclean.
  rewrite substring_short_id by exact Hlen.
  destruct (mem base_name used_names) eqn:E.
  - apply mem_In in E. contradiction.
  - reflexivity.
Qed.

Lemma get_unique_sheet_name_clean_witness :
  Forall (fun c => ~ In c (list_ascii_of_string "Base Case")) invalid_chars /\
  String.length "Base Case" <= 31 /\ ~ In "Base Case" [] /\
  get_unique_sheet_name "Base Case" [] = ("Base Case", app [] ["Base Case"]).
Proof.
  assert (Hc : Forall (fun c => ~ In c (list_ascii_of_string "Base Case")) invalid_chars).
  { repeat constructor; simpl; intuition congruence. }
  assert (Hl : String.length "Base Case" <= 31) by (vm_compute; lia).
  assert (Hf : ~ In "Base Case" ([] : list string)) by (intros []).
  split; [exact Hc|]. split; [exact Hl|]. split; [exact Hf|].
  apply get_unique_sheet_name_clean; assumption.
Defined.

Ltac nodup_strings :=
  repeat (apply NoDup_cons; [simpl; intuition congruence|]); apply NoDup_nil.

Ltac short_strings :=
  repeat (apply Forall_cons; [vm_compute; lia|]); apply Forall_nil.

(** For every choice of the two matrix parameters, the export's five sheets
    get the first 31 characters of their requested names, no suffix, and
    five distinct names of at most 31 characters. *)
Theorem export_sheet_names_distinct (param1 param2 : param) :
  export_sheet_names (param_name param1) (param_name param2)
    = map (substring 0 31) (export_sheet_requests (param_name param1) (param_name param2)) /\
  NoDup (export_sheet_names (param_name param1) (param_name param2)) /\
  Forall (fun n => String.length n <= 31)
         (export_sheet_names (param_name param1) (param_name param2)).
Proof.
  destruct param1, param2; vm_compute;
    (split; [reflexivity | split; [nodup_strings | short_strings]]).
Qed.

End SheetNameFacts.

(** ** Tornado, matrix and name lookup: further properties *)

Lemma ooip_pos b : valid b -> 0 < ooip_of b.
Proof.
  intros (Ha & Hh & Hp & Hp' & Hw & Hw' & Hf & Hr).
  unfold ooip_of, porosity_decimal, water_saturation_decimal. rewrite !div100.
  unfold Qdiv. apply Qmult_lt_0_compat; [pos_product | apply Qinv_lt_0_compat; exact Hf].
Qed.

Lemma recovery_factor_decimal_pos b : valid b -> 0 < recovery_factor_decimal b.
Proof.
  intros (Ha & Hh & Hp & Hp' & Hw & Hw' & Hf & Hr).
  unfold recovery_factor_decimal. rewrite div100. lra.
Qed.

Lemma recoverable_pos b : valid b -> 0 < recoverable_reserves_of b.
Proof.
  intros Hv. unfold recoverable_reserves_of.
  apply Qmult_lt_0_compat; [apply ooip_pos | apply recovery_factor_decimal_pos]; exact Hv.
Qed.

Lemma ooip_set_self b p : ooip_of (param_set b p (param_get b p)) = ooip_of b.
Proof. destruct p; reflexivity. Qed.

(** [ooip_low]/[ooip_high] of the five parameters other than the recovery
    factor, as Formula Engine calls. *)
Lemma tornado_ooip_as_formula b :
  (forall p, In p [Area; Thickness; Porosity; WaterSaturation] ->
     ooip_low (tornado_entry_of b p) = ooip_of (param_set b p (param_get b p * 0.8)) /\
     ooip_high (tornado_entry_of b p) = ooip_of (param_set b p (param_get b p * 1.2))) /\
  ooip_low (tornado_entry_of b OilFVF) = ooip_of (param_set b OilFVF (oil_fvf b * 1.2)) /\
  ooip_high (tornado_entry_of b OilFVF) = ooip_of (param_set b OilFVF (oil_fvf b * 0.8)).
Proof.
  split; [|split; reflexivity].
  intros p Hp. simpl in Hp.
  destruct Hp as [<- | [<- | [<- | [<- | []]]]]; split; reflexivity.
Qed.

(** For valid inputs every tornado bar spans the base case: the base OOIP
    and the base recoverable figure lie strictly between the two ends of
    each bar (low end below for area, thickness, porosity and oil_fvf, above
    for water saturation), except that the OOIP bar of the recovery factor
    is the single point base OOIP. *)
Theorem tornado_bars_span_base (b : inputs) :
  valid b ->
  (forall p, In p [Area; Thickness; Porosity; OilFVF] ->
     ooip_low (tornado_entry_of b p) < ooip_of b < ooip_high (tornado_entry_of b p) /\
     recoverable_low (tornado_entry_of b p) < recoverable_reserves_of b
       < recoverable_high (tornado_entry_of b p)) /\
  (ooip_high (tornado_entry_of b WaterSaturation) < ooip_of b
     < ooip_low (tornado_entry_of b WaterSaturation) /\
   recoverable_high (tornado_entry_of b WaterSaturation) < recoverable_reserves_of b
     < recoverable_low (tornado_entry_of b WaterSaturation)) /\
  (ooip_low (tornado_entry_of b RecoveryFactor) = ooip_of b /\
   ooip_high (tornado_entry_of b RecoveryFactor) = ooip_of b /\
   recoverable_low (tornado_entry_of b RecoveryFactor) < recoverable_reserves_of b
     < recoverable_high (tornado_entry_of b RecoveryFactor)).
Proof.
  intros Hv.
  pose proof Hv as (Ha & Hh & Hp & Hp' & Hw & Hw' & Hf & Hr).
  destruct (tornado_ooip_as_formula b) as [Hfive [Hfl Hfh]].
  pose proof (recovery_factor_decimal_pos b Hv) as Hrd.
  pose proof (ooip_pos b Hv) as Ho.
  assert (Hrec : forall x y, x < y -> x * recovery_factor_decimal b < y * recovery_factor_decimal b)
    by (intros x y Hxy; apply Qmult_lt_r; assumption).
  split; [|split; [|split; [reflexivity | split; [reflexivity|]]]].
  - intros p Hin.
    assert (Hooip : ooip_low (tornado_entry_of b p) < ooip_of b
                    < ooip_high (tornado_entry_of b p)).
    { simpl in Hin. rewrite <- (ooip_set_self b p).
      destruct Hin as [<- | [<- | [<- | [<- | []]]]];
        [ destruct (Hfive Area ltac:(simpl; tauto)) as [-> ->]; simpl param_get;
          split; apply ooip_area_increasing; auto; lra
        | destruct (Hfive Thickness ltac:(simpl; tauto)) as [-> ->]; simpl param_get;
          split; apply ooip_thickness_increasing; auto; lra
        | destruct (Hfive Porosity ltac:(simpl; tauto)) as [-> ->]; simpl param_get;
          split; apply ooip_porosity_increasing; auto; lra
        | rewrite Hfl, Hfh; simpl param_get;
          split; apply ooip_oil_fvf_decreasing; auto; lra ]. }
    split; [exact Hooip|].
    assert (Hr_eq : recoverable_low (tornado_entry_of b p)
                    = ooip_low (tornado_entry_of b p) * recovery_factor_decimal b /\
                    recoverable_high (tornado_entry_of b p)
                    = ooip_high (tornado_entry_of b p) * recovery_factor_decimal b).
    { simpl in Hin. destruct Hin as [<- | [<- | [<- | [<- | []]]]]; split; reflexivity. }
    destruct Hr_eq as [-> ->]. unfold recoverable_reserves_of.
    destruct Hooip. split; apply Hrec; assumption.
  - assert (Hooip : ooip_high (tornado_entry_of b WaterSaturation) < ooip_of b
                    < ooip_low (tornado_entry_of b WaterSaturation)).
    { rewrite <- (ooip_set_self b WaterSaturation).
      destruct (Hfive WaterSaturation ltac:(simpl; tauto)) as [-> ->]. simpl param_get.
      split; apply ooip_water_saturation_decreasing; auto; lra. }
    split; [exact Hooip|].
    change (ooip_high (tornado_entry_of b WaterSaturation) * recovery_factor_decimal b
            < ooip_of b * recovery_factor_decimal b
            < ooip_low (tornado_entry_of b WaterSaturation) * recovery_factor_decimal b).
    destruct Hooip. split; apply Hrec; assumption.
  - change (ooip_of b * (recovery_factor b * (1 - variation_percent) / 100)
            < ooip_of b * recovery_factor_decimal b
            < ooip_of b * (recovery_factor b * (1 + variation_percent) / 100)).
    unfold recovery_factor_decimal, variation_percent. rewrite !div100.
    split; apply Qmult_lt_l; auto; lra.
Qed.

Lemma tornado_bars_span_base_witness :
  valid default_inputs /\
  (forall p, In p [Area; Thickness; Porosity; OilFVF] ->
     ooip_low (tornado_entry_of default_inputs p) < ooip_of default_inputs
       < ooip_high (tornado_entry_of default_inputs p) /\
     recoverable_low (tornado_entry_of default_inputs p)
       < recoverable_reserves_of default_inputs
       < recoverable_high (tornado_entry_of default_inputs p)) /\
  (ooip_high (tornado_entry_of default_inputs WaterSaturation) < ooip_of default_inputs
     < ooip_low (tornado_entry_of default_inputs WaterSaturation) /\
   recoverable_high (tornado_entry_of default_inputs WaterSaturation)
     < recoverable_reserves_of default_inputs
     < recoverable_low (tornado_entry_of default_inputs WaterSaturation)) /\
  (ooip_low (tornado_entry_of default_inputs RecoveryFactor) = ooip_of default_inputs /\
   ooip_high (tornado_entry_of default_inputs RecoveryFactor) = ooip_of default_inputs /\
   recoverable_low (tornado_entry_of default_inputs RecoveryFactor)
     < recoverable_reserves_of default_inputs
     < recoverable_high (tornado_entry_of default_inputs RecoveryFactor)).
Proof.
  assert (Hv : valid default_inputs)
    by (unfold valid; vm_compute; repeat split; reflexivity).
  split; [exact Hv|]. apply tornado_bars_span_base. exact Hv.
Defined.

Lemma nth_map_lt {A B : Type} (f : A -> B) (l : list A) i da db :
  (i < length l)%nat -> nth i (map f l) db = f (nth i l da).
Proof.
  intros Hi. rewrite nth_indep with (d' := f da) by (rewrite length_map; exact Hi).
  apply map_nth.
Qed.

Lemma matrix_temp_forward b p1 p2 x1 x2 :
  (param_index p1 < param_index p2)%nat ->
  matrix_temp_ooip b p1 p2 x1 x2 = ooip_of (param_set (param_set b p1 x1) p2 x2) /\
  matrix_temp_recoverable b p1 p2 x1 x2
  = recoverable_reserves_of (param_set (param_set b p1 x1) p2 x2).
Proof.
  intros H. destruct p1, p2; cbn [param_index] in H; try lia; split; reflexivity.
Qed.

(** For a pair selected in select-box order ([param1] listed before
    [param2]) both grids are 10 x 10, and cell (i, j) is the Formula Engine
    value at the inputs with [param1] set to the i-th and [param2] to the
    j-th grid value. *)
Theorem matrix_forward_pair_cells (b : inputs) (p1 p2 : param) :
  (param_index p1 < param_index p2)%nat ->
  length (ooip_matrix b p1 p2) = matrix_points /\
  Forall (fun row => length row = matrix_points) (ooip_matrix b p1 p2) /\
  length (recoverable_matrix b p1 p2) = matrix_points /\
  Forall (fun row => length row = matrix_points) (recoverable_matrix b p1 p2) /\
  (forall i j, (i < matrix_points)%nat -> (j < matrix_points)%nat ->
     cell (ooip_matrix b p1 p2) i j
     = ooip_of (param_set (param_set b p1 (nth i (matrix_range b p1) 0)) p2
                  (nth j (matrix_range b p2) 0)) /\
     cell (recoverable_matrix b p1 p2) i j
     = recoverable_reserves_of
         (param_set (param_set b p1 (nth i (matrix_range b p1) 0)) p2
            (nth j (matrix_range b p2) 0))).
Proof.
  intros Hlt.
  unfold ooip_matrix, recoverable_matrix.
  split; [rewrite length_map; apply matrix_range_length|].
  split; [apply Forall_forall; intros row Hrow; apply in_map_iff in Hrow;
          destruct Hrow as (x & <- & _); rewrite length_map; apply matrix_range_length|].
  split; [rewrite length_map; apply matrix_range_length|].
  split; [apply Forall_forall; intros row Hrow; apply in_map_iff in Hrow;
          destruct Hrow as (x & <- & _); rewrite length_map; apply matrix_range_length|].
  intros i j Hi Hj. unfold cell.
  rewrite <- (matrix_range_length b p1) in Hi.
  rewrite <- (matrix_range_length b p2) in Hj.
  rewrite !(nth_map_lt _ _ i 0 []) by exact Hi.
  rewrite !(nth_map_lt _ _ j 0 0) by exact Hj.
  apply matrix_temp_forward. exact Hlt.
Qed.

Lemma matrix_forward_pair_cells_witness :
  (param_index Area < param_index OilFVF)%nat /\
  cell (ooip_matrix default_inputs Area OilFVF) 9 0
  = ooip_of (param_set (param_set default_inputs Area
                          (nth 9 (matrix_range default_inputs Area) 0)) OilFVF
               (nth 0 (matrix_range default_inputs OilFVF) 0)).
Proof.
  split; [cbn; lia|].
  destruct (matrix_forward_pair_cells default_inputs Area OilFVF)
    as (_ & _ & _ & _ & Hcell); [cbn; lia|].
  refine (proj1 (Hcell 9%nat 0%nat _ _)); unfold matrix_points; lia.
Defined.

(** [eval(param.lower().replace(' ', '_'))] on every select-box label
    finds the module-level variable holding that parameter's current value:
    no [NameError], and the value is the input's. *)
Theorem eval_param_name_value (b : inputs) (p : param) :
  eval_param_name b p = Some (param_get b p).
Proof. destruct p; reflexivity. Qed.

(** ** Range metrics of the sweep: further properties *)

Lemma fold_min_spec (t : list Q) (acc : Q) :
  let r := fold_left (fun m y => if Qlt_le_dec y m then y else m) t acc in
  (r = acc \/ In r t) /\ r <= acc /\ (forall x, In x t -> r <= x).
Proof.
  revert acc; induction t as [|y t IH]; intros acc; simpl.
  - split; [left; reflexivity | split; [apply Qle_refl | intros x []]].
  - destruct (Qlt_le_dec y acc) as [Hy|Hy];
      destruct (IH (if Qlt_le_dec y acc then y else acc)) as (Hin & Hle & Hall);
      destruct (Qlt_le_dec y acc); try lra.
    + split; [destruct Hin as [-> | Hin]; [right; left; reflexivity | right; right; exact Hin]|].
      split; [lra|]. intros x [<- | Hx]; [exact Hle | apply Hall, Hx].
    + split; [destruct Hin as [-> | Hin]; [left; reflexivity | right; right; exact Hin]|].
      split; [exact Hle|]. intros x [<- | Hx]; [lra | apply Hall, Hx].
Qed.

Lemma fold_max_spec (t : list Q) (acc : Q) :
  let r := fold_left (fun m y => if Qlt_le_dec m y then y else m) t acc in
  (r = acc \/ In r t) /\ acc <= r /\ (forall x, In x t -> x <= r).
Proof.
  revert acc; induction t as [|y t IH]; intros acc; simpl.
  - split; [left; reflexivity | split; [apply Qle_refl | intros x []]].
  - destruct (Qlt_le_dec acc y) as [Hy|Hy];
      destruct (IH (if Qlt_le_dec acc y then y else acc)) as (Hin & Hle & Hall);
      destruct (Qlt_le_dec acc y); try lra.
    + split; [destruct Hin as [-> | Hin]; [right; left; reflexivity | right; right; exact Hin]|].
      split; [lra|]. intros x [<- | Hx]; [exact Hle | apply Hall, Hx].
    + split; [destruct Hin as [-> | Hin]; [left; reflexivity | right; right; exact Hin]|].
      split; [exact Hle|]. intros x [<- | Hx]; [lra | apply Hall, Hx].
Qed.

Lemma py_min_spec (l : list Q) :
  l <> [] -> exists r, py_min l = Some r /\ In r l /\ (forall x, In x l -> r <= x).
Proof.
  destruct l as [|x t]; [contradiction|]. intros _.
  destruct (fold_min_spec t x) as (Hin & Hle & Hall).
  eexists; split; [reflexivity|]. split.
  - destruct Hin as [-> | Hin]; [left; reflexivity | right; exact Hin].
  - intros y [<- | Hy]; [exact Hle | apply Hall, Hy].
Qed.

Lemma py_max_spec (l : list Q) :
  l <> [] -> exists r, py_max l = Some r /\ In r l /\ (forall x, In x l -> x <= r).
Proof.
  destruct l as [|x t]; [contradiction|]. intros _.
  destruct (fold_max_spec t x) as (Hin & Hle & Hall).
  eexists; split; [reflexivity|]. split.
  - destruct Hin as [-> | Hin]; [left; reflexivity | right; exact Hin].
  - intros y [<- | Hy]; [exact Hle | apply Hall, Hy].
Qed.

(** A list whose values are all [f] of points [v], with [f a <= f v <= f c]
    for two of its points [a] and [c]: [min] gives [f a] and [max] [f c]. *)
Lemma py_min_max_map (f : Q -> Q) (l : list Q) a c :
  In a l -> In c l -> (forall v, In v l -> f a <= f v <= f c) ->
  exists mn mx, py_min (map f l) = Some mn /\ py_max (map f l) = Some mx /\
                mn == f a /\ mx == f c.
Proof.
  intros Ha Hc Hb.
  assert (Hne : map f l <> []) by (destruct l; [destruct Ha | discriminate]).
  destruct (py_min_spec _ Hne) as (mn & Hmn & Hmn_in & Hmn_le).
  destruct (py_max_spec _ Hne) as (mx & Hmx & Hmx_in & Hmx_le).
  exists mn, mx. split; [exact Hmn|]. split; [exact Hmx|].
  apply in_map_iff in Hmn_in as (v & <- & Hv).
  apply in_map_iff in Hmx_in as (w & <- & Hw).
  pose proof (Hmn_le (f a) (in_map f l a Ha)).
  pose proof (Hmx_le (f c) (in_map f l c Hc)).
  pose proof (Hb v Hv). pose proof (Hb w Hw).
  split; apply Qle_antisym; lra.
Qed.

Lemma linspace_bounds lo hi m x :
  (1 <= m)%nat -> lo <= hi -> In x (linspace lo hi (S m)) -> lo <= x <= hi.
Proof.
  intros Hm Hle Hin.
  destruct (In_nth _ _ 0 Hin) as (n & Hn & <-).
  rewrite linspace_length in Hn.
  rewrite linspace_nth by lia.
  assert (HM : 0 < inject_Z (Z.of_nat m)).
  { change 0 with (inject_Z 0). rewrite <- Zlt_Qlt. lia. }
  assert (Hq0 : 0 <= inject_Z (Z.of_nat n)).
  { change 0 with (inject_Z 0). rewrite <- Zle_Qle. lia. }
  assert (HqM : inject_Z (Z.of_nat n) <= inject_Z (Z.of_nat m)).
  { rewrite <- Zle_Qle. lia. }
  assert (H0 : 0 <= inject_Z (Z.of_nat n) * (hi - lo) / inject_Z (Z.of_nat m)).
  { apply Qle_shift_div_l; [exact HM|]. nra. }
  assert (H1 : inject_Z (Z.of_nat n) * (hi - lo) / inject_Z (Z.of_nat m) <= hi - lo).
  { apply Qle_shift_div_r; [exact HM|]. nra. }
  generalize dependent (inject_Z (Z.of_nat n) * (hi - lo) / inject_Z (Z.of_nat m)).
  intros t H0 H1. lra.
Qed.

Lemma linspace_first lo hi m :
  (1 <= m)%nat -> exists x, In x (linspace lo hi (S m)) /\ x == lo.
Proof.
  intros Hm. exists (nth 0 (linspace lo hi (S m)) 0). split.
  - apply nth_In. rewrite linspace_length. lia.
  - rewrite linspace_nth by lia. change (inject_Z (Z.of_nat 0)) with 0.
    unfold Qdiv. ring.
Qed.

Lemma linspace_last lo hi m : (1 <= m)%nat -> In hi (linspace lo hi (S m)).
Proof.
  intros Hm. destruct m as [|m']; [lia|].
  cbv beta iota zeta delta [linspace].
  apply in_or_app. right. left. reflexivity.
Qed.

(** [min] and [max] over [f] of a grid from [linspace]: the two ends of
    the grid, for [f] non-decreasing or non-increasing on it. *)
Lemma linspace_extremes_up (f : Q -> Q) lo hi m :
  (1 <= m)%nat -> lo <= hi ->
  (forall x y, lo <= x -> x <= y -> y <= hi -> f x <= f y) ->
  exists mn mx, py_min (map f (linspace lo hi (S m))) = Some mn /\
                py_max (map f (linspace lo hi (S m))) = Some mx /\
                mn == f lo /\ mx == f hi.
Proof.
  intros Hm Hle Hf.
  destruct (linspace_first lo hi m Hm) as (x0 & Hx0 & Hx0e).
  destruct (py_min_max_map f _ x0 hi Hx0 (linspace_last lo hi m Hm))
    as (mn & mx & Hmn & Hmx & Emn & Emx).
  - intros v Hv. destruct (linspace_bounds lo hi m v Hm Hle Hv).
    split; apply Hf; lra.
  - exists mn, mx. repeat split; try assumption.
    rewrite Emn. apply Qle_antisym; apply Hf; lra.
Qed.

Lemma linspace_extremes_down (f : Q -> Q) lo hi m :
  (1 <= m)%nat -> lo <= hi ->
  (forall x y, lo <= x -> x <= y -> y <= hi -> f y <= f x) ->
  exists mn mx, py_min (map f (linspace lo hi (S m))) = Some mn /\
                py_max (map f (linspace lo hi (S m))) = Some mx /\
                mn == f hi /\ mx == f lo.
Proof.
  intros Hm Hle Hf.
  destruct (linspace_first lo hi m Hm) as (x0 & Hx0 & Hx0e).
  destruct (py_min_max_map f _ hi x0 (linspace_last lo hi m Hm) Hx0)
    as (mn & mx & Hmn & Hmx & Emn & Emx).
  - intros v Hv. destruct (linspace_bounds lo hi m v Hm Hle Hv).
    split; apply Hf; lra.
  - exists mn, mx. repeat split; try assumption.
    rewrite Emx. apply Qle_antisym; apply Hf; lra.
Qed.

Lemma ooip_set_compat b p x y :
  x == y -> ooip_of (param_set b p x) == ooip_of (param_set b p y).
Proof. intros H. destruct p; unfold_ooip; rewrite ?H; reflexivity. Qed.

Lemma mono_le (f : Q -> Q) x y :
  (x < y -> f x < f y) -> (x == y -> f x == f y) -> x <= y -> f x <= f y.
Proof.
  intros Hlt Heq Hle. destruct (Qle_lt_or_eq _ _ Hle) as [H|H].
  - apply Qlt_le_weak, Hlt, H.
  - rewrite (Heq H). apply Qle_refl.
Qed.

Lemma recoverable_set b p v :
  p <> RecoveryFactor ->
  recoverable_reserves_of (param_set b p v)
  = ooip_of (param_set b p v) * recovery_factor_decimal b.
Proof. intros H. destruct p; [reflexivity..|contradiction]. Qed.

Lemma sweep_values b p :
  map sw_ooip (sweep b p) = map (fun v => ooip_of (param_set b p v)) (param_range b p) /\
  map sw_recoverable (sweep b p)
  = map (fun v => recoverable_reserves_of (param_set b p v)) (param_range b p).
Proof.
  unfold sweep. rewrite !map_map.
  split; apply map_ext; intros v; apply sweep_entry_formula.
Qed.

(** The metrics of a sweep over [linspace lo hi 100], by the direction in
    which the two figures move over the grid. *)
Lemma sweep_metrics_up b p lo hi :
  param_range b p = linspace lo hi (S 99) -> lo <= hi ->
  (forall x y, lo <= x -> x <= y -> y <= hi ->
     ooip_of (param_set b p x) <= ooip_of (param_set b p y)) ->
  (forall x y, lo <= x -> x <= y -> y <= hi ->
     recoverable_reserves_of (param_set b p x) <= recoverable_reserves_of (param_set b p y)) ->
  exists m, sensitivity_metrics b p = Some m /\
    min_ooip m == ooip_of (param_set b p lo) /\
    max_ooip m == ooip_of (param_set b p hi) /\
    min_recoverable m == recoverable_reserves_of (param_set b p lo) /\
    max_recoverable m == recoverable_reserves_of (param_set b p hi) /\
    ooip_variation_pct m
    == (ooip_of (param_set b p hi) - ooip_of (param_set b p lo)) / ooip_of b * 100 /\
    recoverable_variation_pct m
    == (recoverable_reserves_of (param_set b p hi)
        - recoverable_reserves_of (param_set b p lo)) / recoverable_reserves_of b * 100.
Proof.
  intros Hr Hle Ho Hrec.
  destruct (linspace_extremes_up (fun v => ooip_of (param_set b p v)) lo hi 99
              ltac:(lia) Hle Ho) as (mn & mx & Hmn & Hmx & Emn & Emx).
  destruct (linspace_extremes_up (fun v => recoverable_reserves_of (param_set b p v)) lo hi 99
              ltac:(lia) Hle Hrec) as (rmn & rmx & Hrmn & Hrmx & Ermn & Ermx).
  destruct (sweep_values b p) as [Hvo Hvr].
  unfold sensitivity_metrics. cbv zeta. rewrite Hvo, Hvr, Hr, Hmn, Hmx, Hrmn, Hrmx.
  eexists; split; [reflexivity|]. cbn [min_ooip max_ooip min_recoverable max_recoverable
                                       ooip_variation_pct recoverable_variation_pct].
  rewrite Emn, Emx, Ermn, Ermx. repeat split; reflexivity.
Qed.

Lemma sweep_metrics_down b p lo hi :
  param_range b p = linspace lo hi (S 99) -> lo <= hi ->
  (forall x y, lo <= x -> x <= y -> y <= hi ->
     ooip_of (param_set b p y) <= ooip_of (param_set b p x)) ->
  (forall x y, lo <= x -> x <= y -> y <= hi ->
     recoverable_reserves_of (param_set b p y) <= recoverable_reserves_of (param_set b p x)) ->
  exists m, sensitivity_metrics b p = Some m /\
    min_ooip m == ooip_of (param_set b p hi) /\
    max_ooip m == ooip_of (param_set b p lo) /\
    min_recoverable m == recoverable_reserves_of (param_set b p hi) /\
    max_recoverable m == recoverable_reserves_of (param_set b p lo) /\
    ooip_variation_pct m
    == (ooip_of (param_set b p lo) - ooip_of (param_set b p hi)) / ooip_of b * 100 /\
    recoverable_variation_pct m
    == (recoverable_reserves_of (param_set b p lo)
        - recoverable_reserves_of (param_set b p hi)) / recoverable_reserves_of b * 100.
Proof.
  intros Hr Hle Ho Hrec.
  destruct (linspace_extremes_down (fun v => ooip_of (param_set b p v)) lo hi 99
              ltac:(lia) Hle Ho) as (mn & mx & Hmn & Hmx & Emn & Emx).
  destruct (linspace_extremes_down (fun v => recoverable_reserves_of (param_set b p v)) lo hi 99
              ltac:(lia) Hle Hrec) as (rmn & rmx & Hrmn & Hrmx & Ermn & Ermx).
  destruct (sweep_values b p) as [Hvo Hvr].
  unfold sensitivity_metrics. cbv zeta. rewrite Hvo, Hvr, Hr, Hmn, Hmx, Hrmn, Hrmx.
  eexists; split; [reflexivity|]. cbn [min_ooip max_ooip min_recoverable max_recoverable
                                       ooip_variation_pct recoverable_variation_pct].
  rewrite Emn, Emx, Ermn, Ermx. repeat split; reflexivity.
Qed.

Lemma mono_ge (f : Q -> Q) x y :
  (x < y -> f y < f x) -> (x == y -> f x == f y) -> x <= y -> f y <= f x.
Proof.
  intros Hlt Heq Hle. destruct (Qle_lt_or_eq _ _ Hle) as [H|H].
  - apply Qlt_le_weak, Hlt, H.
  - rewrite (Heq H). apply Qle_refl.
Qed.

Lemma recoverable_le_of_ooip b p x y :
  valid b -> p <> RecoveryFactor ->
  ooip_of (param_set b p x) <= ooip_of (param_set b p y) ->
  recoverable_reserves_of (param_set b p x) <= recoverable_reserves_of (param_set b p y).
Proof.
  intros Hv Hp H. rewrite !recoverable_set by exact Hp.
  apply Qmult_le_compat_r; [exact H|].
  apply Qlt_le_weak, recovery_factor_decimal_pos, Hv.
Qed.

Lemma variation_full (x y o : Q) : ~ o == 0 -> x - y == o -> (x - y) / o * 100 == 100.
Proof. intros Ho H. rewrite H. field. exact Ho. Qed.

Lemma recoverable_variation b p x y :
  valid b -> p <> RecoveryFactor ->
  (recoverable_reserves_of (param_set b p x) - recoverable_reserves_of (param_set b p y))
    / recoverable_reserves_of b * 100
  == (ooip_of (param_set b p x) - ooip_of (param_set b p y)) / ooip_of b * 100.
Proof.
  intros Hv Hp. rewrite !recoverable_set by exact Hp.
  unfold recoverable_reserves_of.
  pose proof (ooip_pos b Hv). pose proof (recovery_factor_decimal_pos b Hv).
  field. split; lra.
Qed.

(** For valid inputs, sweeping area, thickness or porosity over [0.5, 1.5]
    times its value: the smallest OOIP and recoverable figures are those at
    the low end of the sweep, the largest those at the high end, and both
    "% variation" figures are exactly 100. *)
Theorem sweep_metrics_increasing (b : inputs) (p : param) :
  valid b -> In p [Area; Thickness; Porosity] ->
  exists m, sensitivity_metrics b p = Some m /\
    min_ooip m == ooip_of (param_set b p (param_get b p * 0.5)) /\
    max_ooip m == ooip_of (param_set b p (param_get b p * 1.5)) /\
    min_recoverable m == recoverable_reserves_of (param_set b p (param_get b p * 0.5)) /\
    max_recoverable m == recoverable_reserves_of (param_set b p (param_get b p * 1.5)) /\
    ooip_variation_pct m == 100 /\ recoverable_variation_pct m == 100.
Proof.
  intros Hv Hin.
  pose proof Hv as (Ha & Hh & Hp & Hp' & Hw & Hw' & Hf & Hr).
  assert (Hnr : p <> RecoveryFactor)
    by (simpl in Hin; intros ->; destruct Hin as [H|[H|[H|[]]]]; discriminate).
  assert (Hlt : forall x y, x < y -> ooip_of (param_set b p x) < ooip_of (param_set b p y)).
  { intros x y Hxy. simpl in Hin. destruct Hin as [<- | [<- | [<- | []]]];
      [apply ooip_area_increasing | apply ooip_thickness_increasing
      | apply ooip_porosity_increasing]; assumption. }
  assert (Hmono : forall x y, x <= y -> ooip_of (param_set b p x) <= ooip_of (param_set b p y)).
  { intros x y. apply (mono_le (fun v => ooip_of (param_set b p v)));
      [apply Hlt | apply ooip_set_compat]. }
  assert (Hg : 0 < param_get b p)
    by (simpl in Hin; destruct Hin as [<- | [<- | [<- | []]]]; assumption).
  assert (Hfull : ooip_of (param_set b p (param_get b p * 1.5))
                  - ooip_of (param_set b p (param_get b p * 0.5)) == ooip_of b).
  { simpl in Hin; destruct Hin as [<- | [<- | [<- | []]]]; cbn [param_get];
      unfold_ooip; field; lra. }
  destruct (sweep_metrics_up b p (param_get b p * 0.5) (param_get b p * 1.5))
    as (m & Hm & E1 & E2 & E3 & E4 & E5 & E6).
  - simpl in Hin; destruct Hin as [<- | [<- | [<- | []]]]; reflexivity.
  - lra.
  - intros x y _ Hxy _. apply Hmono, Hxy.
  - intros x y _ Hxy _. apply recoverable_le_of_ooip; [exact Hv | exact Hnr | apply Hmono, Hxy].
  - pose proof (ooip_pos b Hv) as Ho.
    exists m. do 5 (split; [assumption|]). split.
    + rewrite E5. apply variation_full; [lra | exact Hfull].
    + rewrite E6, recoverable_variation by assumption.
      apply variation_full; [lra | exact Hfull].
Qed.

Lemma sweep_metrics_increasing_witness :
  valid default_inputs /\ In Porosity [Area; Thickness; Porosity] /\
  exists m, sensitivity_metrics default_inputs Porosity = Some m /\
    min_ooip m == ooip_of (param_set default_inputs Porosity
                             (param_get default_inputs Porosity * 0.5)) /\
    max_ooip m == ooip_of (param_set default_inputs Porosity
                             (param_get default_inputs Porosity * 1.5)) /\
    min_recoverable m == recoverable_reserves_of
                           (param_set default_inputs Porosity
                              (param_get default_inputs Porosity * 0.5)) /\
    max_recoverable m == recoverable_reserves_of
                           (param_set default_inputs Porosity
                              (param_get default_inputs Porosity * 1.5)) /\
    ooip_variation_pct m == 100 /\ recoverable_variation_pct m == 100.
Proof.
  assert (Hv : valid default_inputs)
    by (unfold valid; vm_compute; repeat split; reflexivity).
  assert (Hin : In Porosity [Area; Thickness; Porosity]) by (simpl; tauto).
  split; [exact Hv|]. split; [exact Hin|].
  apply sweep_metrics_increasing; assumption.
Defined.

(** For valid inputs, sweeping water saturation over [0.5, 1.5] times its
    value: the smallest figures are those at the high end, the largest those
    at the low end, and both "% variation" figures equal
    [Sw / (100 - Sw) * 100] (Sw in percent). *)
Theorem sweep_metrics_water_saturation (b : inputs) :
  valid b ->
  exists m, sensitivity_metrics b WaterSaturation = Some m /\
    min_ooip m == ooip_of (param_set b WaterSaturation (water_saturation b * 1.5)) /\
    max_ooip m == ooip_of (param_set b WaterSaturation (water_saturation b * 0.5)) /\
    min_recoverable m
      == recoverable_reserves_of (param_set b WaterSaturation (water_saturation b * 1.5)) /\
    max_recoverable m
      == recoverable_reserves_of (param_set b WaterSaturation (water_saturation b * 0.5)) /\
    ooip_variation_pct m == water_saturation b / (100 - water_saturation b) * 100 /\
    recoverable_variation_pct m == water_saturation b / (100 - water_saturation b) * 100.
Proof.
  intros Hv.
  pose proof Hv as (Ha & Hh & Hp & Hp' & Hw & Hw' & Hf & Hr).
  assert (Hmono : forall x y, x <= y ->
            ooip_of (param_set b WaterSaturation y) <= ooip_of (param_set b WaterSaturation x)).
  { intros x y. apply (mono_ge (fun v => ooip_of (param_set b WaterSaturation v)));
      [intros; apply ooip_water_saturation_decreasing; assumption | apply ooip_set_compat]. }
  destruct (sweep_metrics_down b WaterSaturation
              (water_saturation b * 0.5) (water_saturation b * 1.5))
    as (m & Hm & E1 & E2 & E3 & E4 & E5 & E6).
  - reflexivity.
  - lra.
  - intros x y _ Hxy _. apply Hmono, Hxy.
  - intros x y _ Hxy _.
    apply recoverable_le_of_ooip; [exact Hv | discriminate | apply Hmono, Hxy].
  - assert (Hvar : (ooip_of (param_set b WaterSaturation (water_saturation b * 0.5))
                    - ooip_of (param_set b WaterSaturation (water_saturation b * 1.5)))
                   / ooip_of b * 100
                   == water_saturation b / (100 - water_saturation b) * 100).
    { pose proof (ooip_pos b Hv) as Ho. revert Ho. unfold_ooip. intros Ho.
      assert (Hk : 0 < 7758 * area b * thickness b * (porosity b * (1 # 100))) by pos_product.
      field. repeat split; lra. }
    exists m. do 5 (split; [assumption|]). split.
    + rewrite E5. exact Hvar.
    + rewrite E6, recoverable_variation by (assumption || discriminate). exact Hvar.
Qed.

Lemma sweep_metrics_water_saturation_witness :
  valid default_inputs /\
  exists m, sensitivity_metrics default_inputs WaterSaturation = Some m /\
    min_ooip m == ooip_of (param_set default_inputs WaterSaturation
                             (water_saturation default_inputs * 1.5)) /\
    max_ooip m == ooip_of (param_set default_inputs WaterSaturation
                             (water_saturation default_inputs * 0.5)) /\
    min_recoverable m == recoverable_reserves_of
                           (param_set default_inputs WaterSaturation
                              (water_saturation default_inputs * 1.5)) /\
    max_recoverable m == recoverable_reserves_of
                           (param_set default_inputs WaterSaturation
                              (water_saturation default_inputs * 0.5)) /\
    ooip_variation_pct m == water_saturation default_inputs
                            / (100 - water_saturation default_inputs) * 100 /\
    recoverable_variation_pct m == water_saturation default_inputs
                                   / (100 - water_saturation default_inputs) * 100.
Proof.
  assert (Hv : valid default_inputs)
    by (unfold valid; vm_compute; repeat split; reflexivity).
  split; [exact Hv|]. apply sweep_metrics_water_saturation. exact Hv.
Defined.

(** For valid inputs, sweeping the formation volume factor over [0.8, 1.2]
    times its value: the smallest figures are those at the high end, the
    largest those at the low end, and both "% variation" figures are 125/3
    (about 41.67), whatever the inputs. *)
Theorem sweep_metrics_oil_fvf (b : inputs) :
  valid b ->
  exists m, sensitivity_metrics b OilFVF = Some m /\
    min_ooip m == ooip_of (param_set b OilFVF (oil_fvf b * 1.2)) /\
    max_ooip m == ooip_of (param_set b OilFVF (oil_fvf b * 0.8)) /\
    min_recoverable m == recoverable_reserves_of (param_set b OilFVF (oil_fvf b * 1.2)) /\
    max_recoverable m == recoverable_reserves_of (param_set b OilFVF (oil_fvf b * 0.8)) /\
    ooip_variation_pct m == 125 # 3 /\ recoverable_variation_pct m == 125 # 3.
Proof.
  intros Hv.
  pose proof Hv as (Ha & Hh & Hp & Hp' & Hw & Hw' & Hf & Hr).
  assert (Hmono : forall x y, 0 < x -> x <= y ->
            ooip_of (param_set b OilFVF y) <= ooip_of (param_set b OilFVF x)).
  { intros x y Hx. apply (mono_ge (fun v => ooip_of (param_set b OilFVF v)));
      [intros; apply ooip_oil_fvf_decreasing; assumption | apply ooip_set_compat]. }
  destruct (sweep_metrics_down b OilFVF (oil_fvf b * 0.8) (oil_fvf b * 1.2))
    as (m & Hm & E1 & E2 & E3 & E4 & E5 & E6).
  - reflexivity.
  - lra.
  - intros x y Hx Hxy _. apply Hmono; [lra | exact Hxy].
  - intros x y Hx Hxy _.
    apply recoverable_le_of_ooip; [exact Hv | discriminate | apply Hmono; [lra | exact Hxy]].
  - assert (Hvar : (ooip_of (param_set b OilFVF (oil_fvf b * 0.8))
                    - ooip_of (param_set b OilFVF (oil_fvf b * 1.2)))
                   / ooip_of b * 100 == 125 # 3).
    { pose proof (ooip_pos b Hv) as Ho. revert Ho. unfold_ooip. intros Ho.
      assert (Hk : 0 < 7758 * area b * thickness b * (porosity b * (1 # 100))
                       * (1 - water_saturation b * (1 # 100))) by pos_product.
      field. repeat split; lra. }
    exists m. do 5 (split; [assumption|]). split.
    + rewrite E5. exact Hvar.
    + rewrite E6, recoverable_variation by (assumption || discriminate). exact Hvar.
Qed.

Lemma sweep_metrics_oil_fvf_witness :
  valid default_inputs /\
  exists m, sensitivity_metrics default_inputs OilFVF = Some m /\
    min_ooip m == ooip_of (param_set default_inputs OilFVF (oil_fvf default_inputs * 1.2)) /\
    max_ooip m == ooip_of (param_set default_inputs OilFVF (oil_fvf default_inputs * 0.8)) /\
    min_recoverable m == recoverable_reserves_of
                           (param_set default_inputs OilFVF (oil_fvf default_inputs * 1.2)) /\
    max_recoverable m == recoverable_reserves_of
                           (param_set default_inputs OilFVF (oil_fvf default_inputs * 0.8)) /\
    ooip_variation_pct m == 125 # 3 /\ recoverable_variation_pct m == 125 # 3.
Proof.
  assert (Hv : valid default_inputs)
    by (unfold valid; vm_compute; repeat split; reflexivity).
  split; [exact Hv|]. apply sweep_metrics_oil_fvf. exact Hv.
Defined.

(** For valid inputs, sweeping the recovery factor over [0.5, 1.5] times
    its value: every OOIP of the sweep is the base OOIP, so its minimum and
    maximum are the base OOIP and its "% variation" is 0, while the
    recoverable figures run from base OOIP * 0.5 RF to base OOIP * 1.5 RF,
    a "% variation" of 100. *)
Theorem sweep_metrics_recovery_factor (b : inputs) :
  valid b ->
  exists m, sensitivity_metrics b RecoveryFactor = Some m /\
    min_ooip m == ooip_of b /\ max_ooip m == ooip_of b /\
    ooip_variation_pct m == 0 /\
    min_recoverable m == ooip_of b * (recovery_factor b * 0.5 / 100) /\
    max_recoverable m == ooip_of b * (recovery_factor b * 1.5 / 100) /\
    recoverable_variation_pct m == 100.
Proof.
  intros Hv.
  pose proof Hv as (Ha & Hh & Hp & Hp' & Hw & Hw' & Hf & Hr).
  pose proof (ooip_pos b Hv) as Ho.
  destruct (sweep_metrics_up b RecoveryFactor
              (recovery_factor b * 0.5) (recovery_factor b * 1.5))
    as (m & Hm & E1 & E2 & E3 & E4 & E5 & E6).
  - reflexivity.
  - lra.
  - intros x y _ _ _. rewrite !ooip_of_recovery_factor. apply Qle_refl.
  - intros x y _ Hxy _.
    change (ooip_of b * (x / 100) <= ooip_of b * (y / 100)).
    rewrite !div100. apply scale_le; [apply Qlt_le_weak, Ho | lra].
  - exists m. split; [exact Hm|].
    rewrite !ooip_of_recovery_factor in E1, E2, E5.
    split; [exact E1|]. split; [exact E2|].
    split; [rewrite E5; setoid_replace (ooip_of b - ooip_of b) with 0 by ring;
            reflexivity|].
    split; [exact E3|]. split; [exact E4|].
    rewrite E6. unfold recoverable_reserves_of, recovery_factor_decimal.
    rewrite !ooip_of_recovery_factor. cbn [param_set recovery_factor].
    field. split; lra.
Qed.

Lemma sweep_metrics_recovery_factor_witness :
  valid default_inputs /\
  exists m, sensitivity_metrics default_inputs RecoveryFactor = Some m /\
    min_ooip m == ooip_of default_inputs /\ max_ooip m == ooip_of default_inputs /\
    ooip_variation_pct m == 0 /\
    min_recoverable m
      == ooip_of default_inputs * (recovery_factor default_inputs * 0.5 / 100) /\
    max_recoverable m
      == ooip_of default_inputs * (recovery_factor default_inputs * 1.5 / 100) /\
    recoverable_variation_pct m == 100.
Proof.
  assert (Hv : valid default_inputs)
    by (unfold valid; vm_compute; repeat split; reflexivity).
  split; [exact Hv|]. apply sweep_metrics_recovery_factor. exact Hv.
Defined.
